(** * ssecat: the broadcast broker of [ssed.go]

    A shallow embedding of the goroutines of [ssed.go] and the properties
    of the broker that the specification states about them.

    The program is a set of goroutines that talk over channels:
    - [listen] (l.94-117), the coordination loop that owns [clients];
    - one [ServeHTTP] invocation per connection (l.46-92), with the
      goroutine it spawns to wait for the close notification (l.77-80);
    - one producer: [PromptHandler] (l.119-134) or the scanning goroutine
      of [main] (l.153-163).

    The embedding is an executable labelled transition system: a state
    holds the program point of every goroutine and the contents of the
    shared objects, an action names one goroutine step (or one
    rendezvous on an unbuffered channel) and [step] performs it, or
    returns [None] when the goroutines involved are not at that point. *)

From stdpp Require Import base option list gmap strings sorting.

Set Default Proof Using "Type".
Set Warnings "-clear-no-such-hyp".

(** ** Data *)

(** [chan []byte] values are compared by identity.  Every invocation of
    [ServeHTTP] calls [make(chan []byte)] once (l.63), so the channel made
    by invocation [h] is named [h]. *)
Definition conn := nat.
Definition chan := nat.

(** What the dynamic type of [rw] implements: the two type assertions of
    [ServeHTTP] (l.50 and l.75). *)
Record ResponseWriter := {
  isFlusher : bool;
  isCloseNotifier : bool
}.

(** Why a [ServeHTTP] invocation is over. *)
Inductive Exit :=
| StreamingUnsupported   (* l.53-54: http.Error(..., 500); return *)
| Panicked.              (* l.75: failed type assertion, after the deferred call *)

(** Which send on [closingClients] a request comes from. *)
Inductive Closer :=
| ByWatcher    (* l.79 *)
| ByDefer.     (* l.71 *)

(** Lines printed on standard output that depend on the state of the
    broker (the time stamp of l.159 is not modelled). *)
Inductive Output (Msg : Type) :=
| OPrompt (nclients : nat)                 (* l.123 *)
| OError                                   (* l.126 *)
| OSent (line : Msg)                       (* l.130 *)
| OVerbose (nclients : nat) (line : Msg).  (* l.160 *)
Arguments OPrompt {Msg} _.
Arguments OError {Msg}.
Arguments OSent {Msg} _.
Arguments OVerbose {Msg} _ _.

Section Broker.

(** The broker never looks inside a message: [Msg] stands for the Go
    value of type [[]byte] that travels through the channels, and [len]
    for the builtin of the same name (used at l.129 only). *)
Context {Msg : Type} `{!EqDecision Msg} (len : Msg → nat).

(** *** Program points *)

(** [listen]: blocked in the [select] (l.96), or inside the [range] loop
    of l.111-113 with the keys still to visit, blocked in the send of
    l.112 to the first of them. *)
Inductive LoopPC :=
| LSelect
| LRange (event : Msg) (pending : list chan).

(** [ServeHTTP], at its blocking operations. *)
Inductive HandlerPC :=
| HSendNew               (* l.66: broker.newClients <- messageChan *)
| HRecv                  (* l.86: <-messageChan *)
| HWrite (m : Msg)       (* l.86-89: Fprintf and Flush on the transport *)
| HDeferred              (* l.71: deferred broker.closingClients <- messageChan *)
| HReturned (e : Exit).

(** The goroutine of l.77-80. *)
Inductive WatcherPC :=
| WNotify                (* l.78: <-notify *)
| WSend                  (* l.79: broker.closingClients <- messageChan *)
| WDone.

(** The producer goroutine started by [main]. *)
Inductive ProducerPC :=
| PScan                  (* l.155: scan.Scan() *)
| PSend (m : Msg)        (* l.156: broker.Notifier <- scan.Bytes() *)
| PLog (m : Msg)         (* l.158-161 *)
| PEnd                   (* l.155: Scan returned false *)
| QPrompt                (* l.123 *)
| QReadLine              (* l.124 *)
| QSend (line : Msg).    (* l.131: broker.Notifier <- []byte(line) *)

Record Handler := {
  h_rw : ResponseWriter;
  h_pc : HandlerPC;
  h_out : list Msg       (* events written and flushed on the transport *)
}.

Record State := {
  (* Broker, l.16-29 *)
  Notifier : list Msg;            (* buffered channel of capacity 1 (l.34) *)
  clients : gmap chan bool;
  (* goroutines *)
  loop : LoopPC;
  handlers : gmap conn Handler;
  watchers : gmap conn WatcherPC;
  producer : ProducerPC;
  verbose : bool;                 (* *verbosePtr *)
  stdout : list (Output Msg)
}.

Definition set_broker (n : list Msg) (c : gmap chan bool) (l : LoopPC) (s : State) : State :=
  {| Notifier := n; clients := c; loop := l; handlers := handlers s;
     watchers := watchers s; producer := producer s; verbose := verbose s;
     stdout := stdout s |}.

Definition set_handlers (hs : gmap conn Handler) (s : State) : State :=
  {| Notifier := Notifier s; clients := clients s; loop := loop s; handlers := hs;
     watchers := watchers s; producer := producer s; verbose := verbose s;
     stdout := stdout s |}.

Definition set_watchers (ws : gmap conn WatcherPC) (s : State) : State :=
  {| Notifier := Notifier s; clients := clients s; loop := loop s;
     handlers := handlers s; watchers := ws; producer := producer s;
     verbose := verbose s; stdout := stdout s |}.

Definition set_producer (p : ProducerPC) (out : list (Output Msg)) (s : State) : State :=
  {| Notifier := Notifier s; clients := clients s; loop := loop s;
     handlers := handlers s; watchers := watchers s; producer := p;
     verbose := verbose s; stdout := out |}.

Definition set_pc (h : conn) (hd : Handler) (pc : HandlerPC) (s : State) : State :=
  set_handlers (<[h := {| h_rw := h_rw hd; h_pc := pc; h_out := h_out hd |}]> (handlers s)) s.

(** *** The registry operations of [listen] *)

(** l.101: [broker.clients[s] = true]. *)
Definition register (s : chan) (cl : gmap chan bool) : gmap chan bool := <[s := true]> cl.

(** l.106: [delete(broker.clients, s)]; the builtin does nothing when the
    key is absent. *)
Definition deregister (s : chan) (cl : gmap chan bool) : gmap chan bool := delete s cl.

(** l.111: the order in which [range] visits the keys of a map is not
    specified; [order] is an admissible one when it lists every key
    once. *)
Definition range_order (cl : gmap chan bool) (order : list chan) : Prop :=
  NoDup order ∧ list_to_set order = dom cl.

Global Instance range_order_dec cl order : Decision (range_order cl order).
Proof. unfold range_order. apply _. Defined.

(** The loop of l.111-113 goes back to the [select] after the last key. *)
Definition range_next (event : Msg) (pending : list chan) : LoopPC :=
  match pending with
  | [] => LSelect
  | _ :: _ => LRange event pending
  end.

(** *** Actions *)

Inductive Action :=
| AServe (h : conn) (rw : ResponseWriter)
    (* net/http calls broker.ServeHTTP: l.50-63, up to the send of l.66 *)
| ARegister (h : conn)
    (* l.66 meets l.97: the loop runs l.101, the handler l.70-80 *)
| ACloseNotify (h : conn)
    (* l.78: the transport reports that the client has gone *)
| AClosing (h : conn) (by_ : Closer)
    (* l.79 or l.71 meets l.102: the loop runs l.106 *)
| AEvent (event : Msg) (order : list chan)
    (* l.107: the loop takes an event from Notifier and enters the range *)
| ADeliver (h : conn) (event : Msg)
    (* l.112 meets l.86: the handler of channel h receives the event *)
| AWritten (h : conn) (ok : bool)
    (* l.86-89: Fprintf and Flush return; the error of Fprintf is dropped *)
| AScan (r : option Msg)
    (* l.155: scan.Scan(), with the token of scan.Bytes() when it is true *)
| APublish (m : Msg)
    (* l.156 or l.131: Notifier takes the message of the producer *)
| ALog
    (* l.158-161 *)
| APrompt
    (* l.123 *)
| AReadLine (line : Msg) (err : bool).
    (* l.124-132: reader.ReadLine() returns line and err *)

(** *** [ServeHTTP] between its blocking operations *)

(** l.50-66.  Without [http.Flusher] the handler answers 500 and returns;
    otherwise it sets the headers, makes its channel and blocks in the
    send on [newClients]. *)
Definition ServeHTTP_entry (rw : ResponseWriter) : Handler :=
  {| h_rw := rw;
     h_pc := if isFlusher rw then HSendNew else HReturned StreamingUnsupported;
     h_out := [] |}.

(** l.70-82, once the send of l.66 has been taken.  The deferred call is
    installed, then [rw.(http.CloseNotifier)] panics when [rw] has no such
    method, which runs the deferred send; otherwise the watcher is
    started and the handler enters the loop of l.82. *)
Definition ServeHTTP_registered (rw : ResponseWriter) : HandlerPC * option WatcherPC :=
  if isCloseNotifier rw then (HRecv, Some WNotify) else (HDeferred, None).

(** *** One step *)

Definition step (a : Action) (s : State) : option State :=
  match a with
  | AServe h rw =>
      match handlers s !! h with
      | Some _ => None
      | None => Some (set_handlers (<[h := ServeHTTP_entry rw]> (handlers s)) s)
      end
  | ARegister h =>
      match handlers s !! h, loop s with
      | Some hd, LSelect =>
          match h_pc hd with
          | HSendNew =>
              let '(pc, w) := ServeHTTP_registered (h_rw hd) in
              let s1 := set_broker (Notifier s) (register h (clients s)) LSelect s in
              let s2 := set_pc h hd pc s1 in
              Some (match w with
                    | Some wpc => set_watchers (<[h := wpc]> (watchers s2)) s2
                    | None => s2
                    end)
          | _ => None
          end
      | _, _ => None
      end
  | ACloseNotify h =>
      match watchers s !! h with
      | Some WNotify => Some (set_watchers (<[h := WSend]> (watchers s)) s)
      | _ => None
      end
  | AClosing h ByWatcher =>
      match watchers s !! h, loop s with
      | Some WSend, LSelect =>
          Some (set_watchers (<[h := WDone]> (watchers s))
                  (set_broker (Notifier s) (deregister h (clients s)) LSelect s))
      | _, _ => None
      end
  | AClosing h ByDefer =>
      match handlers s !! h, loop s with
      | Some hd, LSelect =>
          match h_pc hd with
          | HDeferred =>
              Some (set_pc h hd (HReturned Panicked)
                      (set_broker (Notifier s) (deregister h (clients s)) LSelect s))
          | _ => None
          end
      | _, _ => None
      end
  | AEvent event order =>
      match Notifier s, loop s with
      | ev :: rest, LSelect =>
          if decide (ev = event ∧ range_order (clients s) order)
          then Some (set_broker rest (clients s) (range_next event order) s)
          else None
      | _, _ => None
      end
  | ADeliver h event =>
      match loop s, handlers s !! h with
      | LRange ev (c :: rest), Some hd =>
          match h_pc hd with
          | HRecv =>
              if decide (ev = event ∧ c = h)
              then Some (set_pc h hd (HWrite event)
                           (set_broker (Notifier s) (clients s) (range_next ev rest) s))
              else None
          | _ => None
          end
      | _, _ => None
      end
  | AWritten h ok =>
      match handlers s !! h with
      | Some hd =>
          match h_pc hd with
          | HWrite m =>
              Some (set_handlers
                      (<[h := {| h_rw := h_rw hd; h_pc := HRecv;
                                 h_out := if ok then h_out hd ++ [m] else h_out hd |}]>
                         (handlers s)) s)
          | _ => None
          end
      | None => None
      end
  | AScan r =>
      match producer s with
      | PScan => Some (set_producer (match r with Some m => PSend m | None => PEnd end)
                         (stdout s) s)
      | _ => None
      end
  | APublish m =>
      match Notifier s with
      | [] =>
          match producer s with
          | PSend m' =>
              if decide (m' = m)
              then Some (set_producer (if verbose s then PLog m else PScan) (stdout s)
                           (set_broker [m] (clients s) (loop s) s))
              else None
          | QSend m' =>
              if decide (m' = m)
              then Some (set_producer QPrompt (stdout s)
                           (set_broker [m] (clients s) (loop s) s))
              else None
          | _ => None
          end
      | _ :: _ => None
      end
  | ALog =>
      match producer s with
      | PLog m => Some (set_producer PScan (stdout s ++ [OVerbose (size (clients s)) m]) s)
      | _ => None
      end
  | APrompt =>
      match producer s with
      | QPrompt => Some (set_producer QReadLine (stdout s ++ [OPrompt (size (clients s))]) s)
      | _ => None
      end
  | AReadLine line err =>
      match producer s with
      | QReadLine =>
          let out := stdout s ++ (if err then [OError] else []) in
          if decide (0 < len line)
          then Some (set_producer (QSend line) (out ++ [OSent line]) s)
          else Some (set_producer QPrompt out s)
      | _ => None
      end
  end.

(** A schedule is a list of actions, performed from left to right. *)
Fixpoint run (acts : list Action) (s : State) : option State :=
  match acts with
  | [] => Some s
  | a :: acts' =>
      match step a s with
      | Some s' => run acts' s'
      | None => None
      end
  end.

(** [NewServer] (l.31-44) and the choice of the producer in [main]
    (l.147-164): [p] and [v] are the flags [-p] and [-v]. *)
Definition main (p v : bool) : State :=
  {| Notifier := []; clients := ∅; loop := LSelect; handlers := ∅; watchers := ∅;
     producer := if p then QPrompt else PScan; verbose := v; stdout := [] |}.

End Broker.

Arguments LoopPC : clear implicits.
Arguments HandlerPC : clear implicits.
Arguments ProducerPC : clear implicits.
Arguments Handler : clear implicits.
Arguments State : clear implicits.
Arguments Action : clear implicits.

(** ** What the loop takes from its three channels *)

Section Intakes.

Context {Msg : Type}.

(** One value received by the [select] of [listen] (l.96-114). *)
Inductive Intake :=
| NewClient (s : chan)          (* l.97 *)
| ClosingClient (s : chan)      (* l.102 *)
| Event (event : Msg).          (* l.107 *)

(** The effect of one [select] case on the registry; the case of l.107
    only reads it. *)
Definition listen_case (cl : gmap chan bool) (i : Intake) : gmap chan bool :=
  match i with
  | NewClient s => register s cl
  | ClosingClient s => deregister s cl
  | Event _ => cl
  end.

(** The registry once [listen] has taken the values [ops], in this order. *)
Definition listen (ops : list Intake) (cl : gmap chan bool) : gmap chan bool :=
  foldl listen_case cl ops.

(** The specification's registry: [c] has been registered and not
    deregistered since. *)
Definition registered_not_deregistered (c : chan) (ops : list Intake) : Prop :=
  ∃ pre post, ops = pre ++ NewClient c :: post ∧ ClosingClient c ∉ post.

(** The values the loop receives along a schedule. *)
Definition intake_of (a : Action Msg) : list Intake :=
  match a with
  | ARegister h => [NewClient h]
  | AClosing h _ => [ClosingClient h]
  | AEvent event _ => [Event event]
  | _ => []
  end.

Definition intakes (acts : list (Action Msg)) : list Intake := acts ≫= intake_of.

(** The events the loop has taken from [Notifier], oldest first. *)
Definition processed (acts : list (Action Msg)) : list Msg :=
  acts ≫= λ a, match a with AEvent event _ => [event] | _ => [] end.

(** The events received on channel [ch], oldest first, each with the
    number of events the loop had taken from [Notifier] when it was
    handed over: [n] is the starting count. *)
Fixpoint deliveries (ch : chan) (n : nat) (acts : list (Action Msg)) : list (nat * Msg) :=
  match acts with
  | [] => []
  | AEvent _ _ :: acts' => deliveries ch (S n) acts'
  | ADeliver h event :: acts' =>
      if decide (h = ch) then (n, event) :: deliveries ch n acts'
      else deliveries ch n acts'
  | _ :: acts' => deliveries ch n acts'
  end.

(** The units the producer has read from its source, and the messages
    [Notifier] has taken from it. *)
Definition units (acts : list (Action Msg)) : list Msg :=
  acts ≫= λ a, match a with
               | AScan (Some m) => [m]
               | AReadLine line _ => [line]
               | _ => []
               end.

Definition published (acts : list (Action Msg)) : list Msg :=
  acts ≫= λ a, match a with APublish m => [m] | _ => [] end.

(** The message the producer is blocked sending, if any. *)
Definition unsent (s : State Msg) : list Msg :=
  match producer s with
  | PSend m | QSend m => [m]
  | _ => []
  end.

(** Sends on [closingClients] for channel [h]: those the loop has taken
    along a schedule, and those a goroutine is blocked in. *)
Definition is_closing (h : conn) (a : Action Msg) : bool :=
  match a with
  | AClosing h' _ => bool_decide (h' = h)
  | _ => false
  end.

Definition closings (h : conn) (acts : list (Action Msg)) : nat :=
  length (filter (λ a, is_closing h a) acts).

Definition blocked_closings (h : conn) (s : State Msg) : nat :=
  (match watchers s !! h with Some WSend => 1 | _ => 0 end) +
  (match h_pc <$> handlers s !! h with Some HDeferred => 1 | _ => 0 end).

(** The goroutines that take part in an action. *)
Inductive Context_ :=
| CLoop
| CHandler (h : conn)
| CWatcher (h : conn)
| CProducer
| CTransport (h : conn).

Definition contexts (a : Action Msg) : list Context_ :=
  match a with
  | AServe h _ => [CHandler h]
  | ARegister h => [CHandler h; CLoop]
  | ACloseNotify h => [CTransport h; CWatcher h]
  | AClosing h ByWatcher => [CWatcher h; CLoop]
  | AClosing h ByDefer => [CHandler h; CLoop]
  | AEvent _ _ => [CLoop]
  | ADeliver h _ => [CLoop; CHandler h]
  | AWritten h _ => [CHandler h; CTransport h]
  | AScan _ | APublish _ | ALog | APrompt | AReadLine _ _ => [CProducer]
  end.

End Intakes.

Arguments Intake : clear implicits.

(** ** Messages in memory

    A Go [[]byte] is a view of a backing array: sending it over a channel
    copies the view, not the bytes.  This part gives [Msg] its
    representation and follows the bytes of a message from the scanner
    of [main] (l.154-156) to the [Fprintf] of [ServeHTTP] (l.86). *)

Module Mem.

Import Stdlib.Strings.Byte.

Global Instance byte_eq_dec : EqDecision byte := byte_eq_dec.

(** The view [arr[off : off+len]]. *)
Record slice := {
  s_arr : nat;
  s_off : nat;
  s_len : nat
}.

Global Instance slice_eq_dec : EqDecision slice.
Proof. solve_decision. Defined.

(** The bytes a view shows in a store of backing arrays. *)
Definition load (hp : gmap nat (list byte)) (sl : slice) : list byte :=
  take (s_len sl) (drop (s_off sl) (default [] (hp !! s_arr sl))).

(** [copy(arr[off:], src)]. *)
Definition store (hp : gmap nat (list byte)) (arr off : nat) (src : list byte)
  : gmap nat (list byte) :=
  <[arr := list_inserts off src (default [] (hp !! arr))]> hp.

(** *** [bufio.Scanner] with the split function [ScanLines]

    The scanner of l.154 belongs to the Go standard library, not to the
    repository.  It is modelled after the library: the token that
    [Bytes] returns is a view of the internal buffer of the scanner, and
    [Scan] reuses that buffer for the input it reads next.  A read of
    zero bytes without error is not modelled. *)

Definition startBufSize : nat := 4096.
Definition MaxScanTokenSize : nat := 64 * 1024.

Record Scanner := MkScanner {
  sc_buf : nat;               (* backing array of s.buf *)
  sc_cap : nat;               (* len(s.buf) *)
  sc_start : nat;
  sc_end : nat;
  sc_token : option slice;    (* s.token; None is nil *)
  sc_err : bool               (* s.err != nil *)
}.

(** [bufio.NewScanner]: no buffer yet. *)
Definition NewScanner : Scanner := MkScanner 0 0 0 0 None false.

(** [dropCR], as the length of its result. *)
Definition dropCR (data : list byte) : nat :=
  match last data with
  | Some x0d => length data - 1
  | _ => length data
  end.

(** [bufio.ScanLines]: the advance and the length of the token, which
    starts at the first byte of [data]; [None] is a nil token. *)
Definition ScanLines (data : list byte) (atEOF : bool) : nat * option nat :=
  if atEOF && bool_decide (length data = 0) then (0, None)
  else match list_find (λ b, b = x0a) data with
       | Some (i, _) => (i + 1, Some (dropCR (take i data)))
       | None => if atEOF then (length data, Some (dropCR data)) else (0, None)
       end.

(** The unread part of the buffer, [s.buf[s.start:s.end]]. *)
Definition window (sc : Scanner) : slice :=
  {| s_arr := sc_buf sc; s_off := sc_start sc; s_len := sc_end sc - sc_start sc |}.

(** Shift the unread data to the beginning of the buffer when there is
    much empty space or space is needed. *)
Definition sc_shift (sc : Scanner) (hp : gmap nat (list byte))
  : Scanner * gmap nat (list byte) :=
  if bool_decide (0 < sc_start sc) &&
     (bool_decide (sc_end sc = sc_cap sc) || bool_decide (sc_cap sc / 2 < sc_start sc))
  then (MkScanner (sc_buf sc) (sc_cap sc) 0 (sc_end sc - sc_start sc) (sc_token sc) (sc_err sc),
        store hp (sc_buf sc) 0 (load hp (window sc)))
  else (sc, hp).

(** A full buffer is replaced by a new one of twice the size; [None]
    when the buffer has reached the largest token size. *)
Definition sc_grow (sc : Scanner) (hp : gmap nat (list byte))
  : option (Scanner * gmap nat (list byte)) :=
  if bool_decide (sc_end sc = sc_cap sc) then
    if bool_decide (MaxScanTokenSize ≤ sc_cap sc) then None
    else
      let newSize := if bool_decide (sc_cap sc * 2 = 0) then startBufSize else sc_cap sc * 2 in
      let newSize := newSize `min` MaxScanTokenSize in
      let newBuf := size hp in
      Some (MkScanner newBuf newSize 0 (sc_end sc - sc_start sc) (sc_token sc) (sc_err sc),
            store (<[newBuf := replicate newSize x00]> hp) newBuf 0 (load hp (window sc)))
  else Some (sc, hp).

(** [s.r.Read(s.buf[s.end:len(s.buf)])] on standard input, given as the
    chunks that successive reads find available; the end of the input
    is reported as an error. *)
Definition sc_read (sc : Scanner) (hp : gmap nat (list byte)) (stdin : list (list byte))
  : Scanner * gmap nat (list byte) * list (list byte) :=
  match stdin with
  | [] => (MkScanner (sc_buf sc) (sc_cap sc) (sc_start sc) (sc_end sc) (sc_token sc) true,
           hp, [])
  | chunk :: rest =>
      let n := length chunk `min` (sc_cap sc - sc_end sc) in
      (MkScanner (sc_buf sc) (sc_cap sc) (sc_start sc) (sc_end sc + n) (sc_token sc) (sc_err sc),
       store hp (sc_buf sc) (sc_end sc) (take n chunk),
       match drop n chunk with [] => rest | tl => tl :: rest end)
  end.

(** The loop of [Scan]: the result of [Scan], the scanner, the store
    and the input left.  Every round that does not return reads. *)
Fixpoint scan_loop (fuel : nat) (sc : Scanner) (hp : gmap nat (list byte))
    (stdin : list (list byte))
  : option (bool * Scanner * gmap nat (list byte) * list (list byte)) :=
  match fuel with
  | 0 => None
  | S fuel' =>
      let '(advance, token) :=
        if bool_decide (sc_start sc < sc_end sc) || sc_err sc
        then ScanLines (load hp (window sc)) (sc_err sc)
        else (0, None) in
      match token with
      | Some n =>
          Some (true,
                MkScanner (sc_buf sc) (sc_cap sc) (sc_start sc + advance) (sc_end sc)
                  (Some {| s_arr := sc_buf sc; s_off := sc_start sc; s_len := n |})
                  (sc_err sc),
                hp, stdin)
      | None =>
          if sc_err sc
          then Some (false, MkScanner (sc_buf sc) (sc_cap sc) 0 0 None true, hp, stdin)
          else
            let '(sc1, hp1) := sc_shift sc hp in
            match sc_grow sc1 hp1 with
            | None =>
                Some (false,
                      MkScanner (sc_buf sc1) (sc_cap sc1) (sc_start sc1) (sc_end sc1) None true,
                      hp1, stdin)
            | Some (sc2, hp2) =>
                let '(sc3, hp3, stdin') := sc_read sc2 hp2 stdin in
                scan_loop fuel' sc3 hp3 stdin'
            end
      end
  end.

(** [scan.Scan()]. *)
Definition Scan (sc : Scanner) (hp : gmap nat (list byte)) (stdin : list (list byte))
  : option (bool * Scanner * gmap nat (list byte) * list (list byte)) :=
  scan_loop (length (concat stdin) + 2) sc hp stdin.

(** [fmt.Fprintf(rw, "data: %s\n\n", m)] (l.86): the bytes of the event. *)
Definition sse_event (m : list byte) : list byte :=
  String.list_byte_of_string "data: "%string ++ m ++ [x0a; x0a].

(** *** The program over the store *)

Record World := {
  sys : State slice;
  heap : gmap nat (list byte);
  scanner : Scanner;
  stdin : list (list byte);
  sent : list (list byte);                 (* bytes of each message when Notifier took it *)
  wire : gmap conn (list (list byte))      (* events formatted by each handler *)
}.

(** One step of the program with its messages in memory.  [Fprintf]
    formats its argument as soon as the receive of l.86 returns. *)
Definition step_mem (a : Action slice) (w : World) : option World :=
  match a with
  | AScan r =>
      match Scan (scanner w) (heap w) (stdin w) with
      | Some (ok, sc', hp', stdin') =>
          if decide (r = if ok then sc_token sc' else None)
          then match step s_len a (sys w) with
               | Some s' =>
                   Some {| sys := s'; heap := hp'; scanner := sc'; stdin := stdin';
                           sent := sent w; wire := wire w |}
               | None => None
               end
          else None
      | None => None
      end
  | APublish m =>
      match step s_len a (sys w) with
      | Some s' =>
          Some {| sys := s'; heap := heap w; scanner := scanner w; stdin := stdin w;
                  sent := sent w ++ [load (heap w) m]; wire := wire w |}
      | None => None
      end
  | ADeliver h m =>
      match step s_len a (sys w) with
      | Some s' =>
          Some {| sys := s'; heap := heap w; scanner := scanner w; stdin := stdin w;
                  sent := sent w;
                  wire := <[h := default [] (wire w !! h) ++ [sse_event (load (heap w) m)]]>
                            (wire w) |}
      | None => None
      end
  | _ =>
      match step s_len a (sys w) with
      | Some s' =>
          Some {| sys := s'; heap := heap w; scanner := scanner w; stdin := stdin w;
                  sent := sent w; wire := wire w |}
      | None => None
      end
  end.

Fixpoint run_mem (acts : list (Action slice)) (w : World) : option World :=
  match acts with
  | [] => Some w
  | a :: acts' =>
      match step_mem a w with
      | Some w' => run_mem acts' w'
      | None => None
      end
  end.

(** [main] without [-p], reading [input] from standard input. *)
Definition main_mem (v : bool) (input : list (list byte)) : World :=
  {| sys := main false v; heap := ∅; scanner := NewScanner; stdin := input;
     sent := []; wire := ∅ |}.

End Mem.

(** An input for the scanning producer: a first line of 3000 bytes, then
    a short second line that reaches standard input in a read of its
    own, and the schedule in which the producer scans the second line
    while the first is still in [Notifier]. *)
Module MemEx.

Import Stdlib.Strings.Byte.

Definition line1 : list byte := replicate 3000 x61.
Definition line2 : list byte := [x62; x62; x62].
Definition input : list (list byte) := [line1 ++ [x0a]; line2 ++ [x0a]].

Definition tok1 : Mem.slice := {| Mem.s_arr := 0; Mem.s_off := 0; Mem.s_len := 3000 |}.
Definition tok2 : Mem.slice := {| Mem.s_arr := 0; Mem.s_off := 0; Mem.s_len := 3 |}.

Definition overwrite : list (Action Mem.slice) :=
  [AServe 1 {| isFlusher := true; isCloseNotifier := true |}; ARegister 1;
   AScan (Some tok1); APublish tok1; AScan (Some tok2);
   AEvent tok1 [1]; ADeliver 1 tok1].

End MemEx.

(** ** Notions the properties are stated with *)

Section Notions.

Context {Msg : Type} `{!EqDecision Msg} (len : Msg → nat).

(** The keys the [range] loop has still to visit. *)
Definition keys_left (l : LoopPC Msg) : list chan :=
  match l with
  | LSelect => []
  | LRange _ p => p
  end.

Definition pending (s : State Msg) : list chan := keys_left (loop s).

(** The program point of the handler of connection [h]. *)
Definition pc_of (s : State Msg) (h : conn) : option (HandlerPC Msg) :=
  h_pc <$> handlers s !! h.

(** What holds of the sends on [closingClients] for channel [h] after the
    schedule [acts]: the watcher exists once the handler is in its loop,
    it sends after the close notification and only then, and the
    deferred send runs only when the handler unwinds. *)
Definition closing_inv (h : conn) (acts : list (Action Msg)) (s : State Msg) : Prop :=
  match pc_of s h with
  | Some HRecv | Some (HWrite _) =>
      match watchers s !! h with
      | Some WNotify => closings h acts = 0 ∧ ACloseNotify h ∉ acts
      | Some WSend => closings h acts = 0 ∧ ACloseNotify h ∈ acts
      | Some WDone => closings h acts = 1 ∧ ACloseNotify h ∈ acts
      | None => False
      end
  | Some (HReturned Panicked) =>
      watchers s !! h = None ∧ closings h acts = 1 ∧ ACloseNotify h ∉ acts
  | _ =>
      watchers s !! h = None ∧ closings h acts = 0 ∧ ACloseNotify h ∉ acts
  end.

(** The channels that were handed an event, in the order of the hand-overs,
    and the events handed to channel [h]. *)
Definition delivered (acts : list (Action Msg)) : list chan :=
  acts ≫= λ a, match a with ADeliver h _ => [h] | _ => [] end.

Definition received (h : conn) (acts : list (Action Msg)) : list Msg :=
  acts ≫= λ a, match a with
               | ADeliver h' m => if decide (h' = h) then [m] else []
               | _ => []
               end.

(** The number of writes of handler [h] that failed. *)
Definition is_failed_write (h : conn) (a : Action Msg) : bool :=
  match a with
  | AWritten h' false => bool_decide (h' = h)
  | _ => false
  end.

Definition failed_writes (h : conn) (acts : list (Action Msg)) : nat :=
  length (filter (λ a, is_failed_write h a) acts).

(** What handler [h] has written to its transport, and the event it is
    writing. *)
Definition out_of (s : State Msg) (h : conn) : list Msg :=
  default [] (h_out <$> handlers s !! h).

Definition writing (s : State Msg) (h : conn) : list Msg :=
  match pc_of s h with
  | Some (HWrite m) => [m]
  | _ => []
  end.

(** The handler of [h] has registered and no send on [closingClients]
    for its channel has been taken by the loop. *)
Definition attached (s : State Msg) (h : conn) : Prop :=
  match pc_of s h with
  | Some HRecv | Some (HWrite _) =>
      watchers s !! h = Some WNotify ∨ watchers s !! h = Some WSend
  | Some HDeferred => True
  | _ => False
  end.

(** What relates the registry, the handler and the watcher of [h]. *)
Definition registry_inv (s : State Msg) (h : conn) : Prop :=
  match pc_of s h with
  | Some HRecv | Some (HWrite _) =>
      match watchers s !! h with
      | Some WDone => clients s !! h = None
      | Some _ => clients s !! h = Some true
      | None => False
      end
  | Some HDeferred => clients s !! h = Some true ∧ watchers s !! h = None
  | _ => clients s !! h = None ∧ watchers s !! h = None
  end.

(** Whether the producer is [PromptHandler]. *)
Definition prompt_mode (s : State Msg) : bool :=
  match producer s with
  | QPrompt | QReadLine | QSend _ => true
  | _ => false
  end.

(** The units that the producer passes on: [PromptHandler] drops the
    lines of length 0 (l.129). *)
Definition passed_on (s : State Msg) (us : list Msg) : list Msg :=
  if prompt_mode s then filter (λ m, 0 < len m) us else us.

(** Two states that differ at most in the registry. *)
Definition same_but_clients (s1 s2 : State Msg) : Prop :=
  Notifier s1 = Notifier s2 ∧ loop s1 = loop s2 ∧ handlers s1 = handlers s2 ∧
  watchers s1 = watchers s2 ∧ producer s1 = producer s2 ∧ verbose s1 = verbose s2 ∧
  stdout s1 = stdout s2.

(** An action reads the registry when its outcome depends on it, and
    writes it when it can change it. *)
Definition reads_registry (a : Action Msg) : Prop :=
  ∃ s1 s2, same_but_clients s1 s2 ∧
    ¬ option_Forall2 same_but_clients (step len a s1) (step len a s2).

Definition writes_registry (a : Action Msg) : Prop :=
  ∃ s s', step len a s = Some s' ∧ clients s' ≠ clients s.

End Notions.

(** ** Schedules used as examples *)

Module Ex.

Definition rw : ResponseWriter := {| isFlusher := true; isCloseNotifier := true |}.
Definition rw_plain : ResponseWriter := {| isFlusher := false; isCloseNotifier := false |}.

Definition start (p v : bool) : State string := main p v.
Definition go (acts : list (Action string)) (s : State string) : option (State string) :=
  run String.length acts s.

(** Two subscribers; the first one is still writing "a" when the loop
    starts to fan out "b". *)
Definition stall : list (Action string) :=
  [AServe 1 rw; ARegister 1; AServe 2 rw; ARegister 2;
   AScan (Some "a"); APublish "a"; AEvent "a" [1; 2]; ADeliver 1 "a"; ADeliver 2 "a";
   AWritten 2 true;
   AScan (Some "b"); APublish "b"; AEvent "b" [1; 2]].

(** One subscriber whose write fails. *)
Definition write_fails : list (Action string) :=
  [AServe 1 rw; ARegister 1; AScan (Some "hello"); APublish "hello";
   AEvent "hello" [1]; ADeliver 1 "hello"; AWritten 1 false].

(** One subscriber whose client goes away. *)
Definition disconnect : list (Action string) :=
  [AServe 1 rw; ARegister 1; ACloseNotify 1; AClosing 1 ByWatcher].

(** An event published after the subscriber has gone. *)
Definition after_disconnect : list (Action string) :=
  [AScan (Some "after disconnect"); APublish "after disconnect";
   AEvent "after disconnect" []].

(** The prompt reads an empty line between two others. *)
Definition prompt_lines : list (Action string) :=
  [APrompt; AReadLine "a" false; APublish "a"; AEvent "a" []; APrompt;
   AReadLine "" false; APrompt; AReadLine "b" false; APublish "b"].

(** The prompt shows the number of clients after one has registered. *)
Definition prompt_count : list (Action string) :=
  [AServe 1 rw; ARegister 1; APrompt].

(** A state of the verbose scanning producer about to print its line,
    and the same state with one more client in the registry. *)
Definition logging : State string := set_producer (PLog "x") [] (start false true).
Definition one_more (s : State string) : State string :=
  set_broker (Notifier s) (register 1 (clients s)) (loop s) s.

(** A transport that can flush but has no close notification, and the
    schedule in which an event is taken while the handler for it is in
    its deferred send. *)
Definition rw_noclose : ResponseWriter := {| isFlusher := true; isCloseNotifier := false |}.

Definition unwinding : list (Action string) :=
  [AServe 1 rw_noclose; ARegister 1; AScan (Some "x"); APublish "x"; AEvent "x" [1]].

(** A subscriber that registers after the first event was taken. *)
Definition late : list (Action string) :=
  [AScan (Some "early"); APublish "early"; AEvent "early" []; AServe 1 rw; ARegister 1;
   AScan (Some "late"); APublish "late"; AEvent "late" [1]; ADeliver 1 "late";
   AWritten 1 true].

(** Two subscribers and one event in [Notifier]; the hand-overs of its
    fan-out. *)
Definition two_subscribers : list (Action string) :=
  [AServe 1 rw; ARegister 1; AServe 2 rw; ARegister 2; AScan (Some "a"); APublish "a"].

Definition fanout : list (Action string) :=
  [ADeliver 1 "a"; ADeliver 2 "a"; AWritten 2 true].

(** The two parts of [late], around the registration. *)
Definition before_late : list (Action string) :=
  [AScan (Some "early"); APublish "early"; AEvent "early" []; AServe 1 rw].

Definition after_late : list (Action string) :=
  [AScan (Some "late"); APublish "late"; AEvent "late" [1]; ADeliver 1 "late";
   AWritten 1 true].

End Ex.

(** * Properties *)

Section Registry.

Context {Msg : Type}.
Implicit Types (ops : list (Intake Msg)) (i : Intake Msg) (cl : gmap chan bool) (c : chan).

Lemma listen_snoc ops i cl : listen (ops ++ [i]) cl = listen_case (listen ops cl) i.
Proof. unfold listen. by rewrite foldl_snoc. Qed.

Lemma registered_snoc c ops i :
  registered_not_deregistered c (ops ++ [i]) ↔
  i = NewClient c ∨ (registered_not_deregistered c ops ∧ i ≠ ClosingClient c).
Proof.
  split.
  - intros (pre & post & Heq & Hpost).
    induction post as [|x post _] using rev_ind.
    + apply app_inj_tail in Heq as [_ ->]. by left.
    + rewrite app_comm_cons, app_assoc in Heq.
      apply app_inj_tail in Heq as [-> ->].
      right. split.
      * exists pre, post. split; [done|]. set_solver.
      * intros ->. set_solver.
  - intros [->|[(pre & post & -> & Hpost) Hi]].
    + exists ops, []. split; [done|]. set_solver.
    + exists pre, (post ++ [i]). split.
      * by rewrite <- app_assoc.
      * set_solver.
Qed.

Lemma listen_values ops c b : listen ops ∅ !! c = Some b → b = true.
Proof.
  revert b. induction ops as [|i ops IH] using rev_ind; intros b.
  - unfold listen; simpl. by rewrite lookup_empty.
  - rewrite listen_snoc. destruct i as [s|s|ev]; simpl; [| |by auto].
    + unfold register. rewrite lookup_insert. case_decide; naive_solver.
    + unfold deregister. rewrite lookup_delete. case_decide; naive_solver.
Qed.

(** C2.  Whatever sequence of registrations, deregistrations and events
    the coordination loop has taken, the registry holds exactly the
    channels that were registered and not deregistered afterwards: a
    key is present if and only if it is such a channel, every key
    appears once, and every entry is the value [true]. *)
Theorem listen_registry_exact ops :
  (∀ c, c ∈ dom (listen ops ∅) ↔ registered_not_deregistered c ops) ∧
  NoDup (map_to_list (listen ops ∅)).*1 ∧
  (∀ c b, listen ops ∅ !! c = Some b → b = true).
Proof.
  split; [|split].
  - induction ops as [|i ops IH] using rev_ind; intros c.
    + split; [set_solver|].
      intros (pre & post & Heq & _). by destruct pre.
    + rewrite registered_snoc, listen_snoc, <- IH.
      destruct i as [s|s|ev]; simpl.
      * unfold register. rewrite dom_insert_L.
        destruct (decide (s = c)) as [->|]; [set_solver|].
        split; [|intros [|[]]]; set_solver.
      * unfold deregister. rewrite dom_delete_L.
        destruct (decide (s = c)) as [->|]; [set_solver|].
        split; [|intros [|[]]]; set_solver.
      * split; [|intros [|[]]]; naive_solver.
  - apply NoDup_fst_map_to_list.
  - apply listen_values.
Qed.

(** C5.  Deregistering a channel that is not in the registry leaves the
    registry as it is, deregistering a second time changes nothing
    more, and no other member is touched; [deregister] is total, so no
    error arises. *)
Theorem deregister_absent_is_noop c cl :
  (cl !! c = None → listen [ClosingClient (Msg:=Msg) c] cl = cl) ∧
  listen [ClosingClient (Msg:=Msg) c; ClosingClient c] cl = listen [ClosingClient (Msg:=Msg) c] cl ∧
  (∀ c', c' ≠ c → listen [ClosingClient (Msg:=Msg) c] cl !! c' = cl !! c').
Proof.
  unfold listen; simpl; unfold deregister. split; [|split].
  - apply delete_id.
  - apply delete_delete_eq.
  - intros c' Hne. by rewrite lookup_delete_ne.
Qed.

End Registry.

Section Schedules.

Context {Msg : Type} `{!EqDecision Msg} (len : Msg → nat).
Implicit Types (s : State Msg) (a : Action Msg) (acts : list (Action Msg)) (h c : conn).

(** Unfolds a successful step into the program points it requires. *)
Ltac step_inv H :=
  unfold step, ServeHTTP_registered, ServeHTTP_entry in H;
  repeat (case_match; destruct_and?; simplify_eq; try done).

(** Reads program points and registry entries off an updated state. *)
Ltac lookups :=
  unfold pc_of, pending, set_pc, set_handlers, set_watchers, set_broker, set_producer,
    register, deregister in *;
  simpl in *;
  repeat match goal with
         | H : _ !! _ = _ |- _ => rewrite H in *
         | H : loop _ = _ |- _ => rewrite H in *
         | H : h_pc _ = _ |- _ => rewrite H in *
         end;
  simplify_map_eq; try done.

Lemma run_app acts1 acts2 s :
  run len (acts1 ++ acts2) s = run len acts1 s ≫= run len acts2.
Proof.
  revert s. induction acts1 as [|a acts1 IH]; intros s; simpl; [done|].
  destruct (step len a s); simpl; auto.
Qed.

Lemma run_snoc acts a s s' :
  run len (acts ++ [a]) s = Some s' ↔
  ∃ s1, run len acts s = Some s1 ∧ step len a s1 = Some s'.
Proof.
  rewrite run_app. split.
  - intros H. destruct (run len acts s) as [s1|] eqn:E; simpl in H; [|done].
    exists s1. split; [done|]. by destruct (step len a s1).
  - intros (s1 & -> & H). simpl. by rewrite H.
Qed.

(** Inside the [range], the only step of the loop is the hand-over of
    l.112 to the first pending channel; every other step leaves the loop
    and the handlers that are writing where they are. *)
Lemma step_in_range a s s' event c rest :
  loop s = LRange event (c :: rest) → step len a s = Some s' →
  a = ADeliver c event ∧ pc_of s c = Some HRecv ∧
    loop s' = range_next event rest ∧ pc_of s' c = Some (HWrite event) ∨
  ((CLoop ∉ contexts a) ∧ loop s' = loop s ∧
   (∀ h m, pc_of s h = Some (HWrite m) → (∀ ok, a ≠ AWritten h ok) →
           pc_of s' h = Some (HWrite m))).
Proof.
  intros Hl Hs. destruct a; step_inv Hs.
  all: try (right; split; [set_solver|]; split; [by lookups|]; intros h' m' Hpc Hw).
  all: lookups.
  - destruct (decide (h = h')) as [->|]; lookups.
  - destruct (decide (h = h')) as [->|]; lookups.
  - left. lookups.
  - destruct (decide (h = h')) as [->|]; lookups. by destruct (Hw true).
  - destruct (decide (h = h')) as [->|]; lookups. by destruct (Hw false).
Qed.

(** While the first pending subscriber stays in a write that does not
    return, the loop stays in the send of l.112 and nobody receives. *)
Lemma stalled_blocks_loop acts s s' event c rest m :
  loop s = LRange event (c :: rest) → pc_of s c = Some (HWrite m) →
  (∀ ok, AWritten c ok ∉ acts) → run len acts s = Some s' →
  loop s' = LRange event (c :: rest) ∧ pc_of s' c = Some (HWrite m) ∧
  ∀ h e, ADeliver h e ∉ acts.
Proof.
  revert s. induction acts as [|a acts IH]; intros s Hl Hpc Hw Hr; simpl in Hr.
  - simplify_eq. split_and!; [done..|]. intros h e. apply not_elem_of_nil.
  - destruct (step len a s) as [s1|] eqn:Hs; [|done].
    destruct (step_in_range _ _ _ _ _ _ Hl Hs) as [(-> & Hrecv & _)|(Hc & Hl1 & Hk)];
      [congruence|].
    destruct (IH s1) as (? & ? & Hd); [congruence| |set_solver|done|].
    + apply Hk; [done|]. intros ok ->. apply (Hw ok). by left.
    + split_and!; [done..|]. intros h e [<-|?]%elem_of_cons; [|by eapply Hd].
      apply Hc. simpl. by left.
Qed.

(** C1, amended.  Inside the fan-out the loop offers the event to the
    registered subscribers one at a time with a blocking send: a
    subscriber that is waiting takes it as soon as its turn comes, the
    loop takes no other step until then, and while the subscriber whose
    turn it is stays in a write that does not return, no subscriber
    receives anything. *)
Theorem fanout_is_one_blocking_send_at_a_time s event c rest :
  loop s = LRange event (c :: rest) →
  (pc_of s c = Some HRecv →
   ∃ s', step len (ADeliver c event) s = Some s' ∧
         loop s' = range_next event rest ∧ pc_of s' c = Some (HWrite event)) ∧
  (∀ a s', step len a s = Some s' →
           a = ADeliver c event ∨ ((CLoop ∉ contexts a) ∧ loop s' = loop s)) ∧
  (∀ m acts s', pc_of s c = Some (HWrite m) → (∀ ok, AWritten c ok ∉ acts) →
                run len acts s = Some s' →
                loop s' = loop s ∧ ∀ h e, ADeliver h e ∉ acts).
Proof.
  intros Hl. split_and!.
  - intros Hpc. unfold pc_of in Hpc.
    destruct (handlers s !! c) as [hd|] eqn:Hh; [|done].
    injection Hpc as Hpc.
    unfold step. rewrite Hl, Hh, Hpc.
    rewrite decide_True by done.
    eexists. split; [done|]. by lookups.
  - intros a s' Hs.
    destruct (step_in_range _ _ _ _ _ _ Hl Hs) as [(-> & _)|(Hc & Hl1 & _)]; auto.
  - intros m acts s' Hpc Hw Hr.
    destruct (stalled_blocks_loop _ _ _ _ _ _ _ Hl Hpc Hw Hr) as (? & ? & ?).
    split; [congruence|done].
Qed.

Lemma keys_left_range_next (event : Msg) rest : keys_left (range_next event rest) = rest.
Proof. by destruct rest. Qed.

Lemma range_order_absent (cl : gmap chan bool) order c :
  range_order cl order → cl !! c = None → c ∉ order.
Proof.
  intros [_ Ho] Hc Hin. apply not_elem_of_dom in Hc. apply Hc.
  rewrite <- Ho. by apply elem_of_list_to_set.
Qed.

(** A handler that waits on a channel which is neither in the registry
    nor among the keys the loop has still to visit is not moved by any
    step. *)
Lemma step_deregistered a s s' h :
  pc_of s h = Some HRecv → clients s !! h = None → h ∉ pending s →
  step len a s = Some s' →
  pc_of s' h = Some HRecv ∧ clients s' !! h = None ∧ (h ∉ pending s') ∧
  ∀ e, a ≠ ADeliver h e.
Proof.
  intros Hpc Hcl Hp Hs. destruct a; step_inv Hs.
  all: try (split_and!; [| | |done]).
  all: try (destruct (decide (h0 = h)) as [->|]).
  all: lookups.
  all: rewrite ?keys_left_range_next in *.
  all: try congruence.
  - by eapply range_order_absent.
  - set_solver.
  - split_and!; [done|done|set_solver|congruence].
Qed.

(** C9.  A handler that waits on its channel after the channel has left
    the registry waits for ever: no schedule hands it an event, and
    none makes the loop of l.82-90 end.  (The channel is never closed and
    the loop has no exit, while the deferred call of l.70-72 is meant to
    run "when this handler exits".) *)
Theorem deregistered_handler_waits_forever acts s s' h :
  pc_of s h = Some HRecv → clients s !! h = None → h ∉ pending s →
  run len acts s = Some s' →
  pc_of s' h = Some HRecv ∧ ∀ e, ADeliver h e ∉ acts.
Proof.
  revert s. induction acts as [|a acts IH]; intros s Hpc Hcl Hp Hr; simpl in Hr.
  - simplify_eq. split; [done|]. intros e. apply not_elem_of_nil.
  - destruct (step len a s) as [s1|] eqn:Hs; [|done].
    destruct (step_deregistered _ _ _ _ Hpc Hcl Hp Hs) as (Hpc1 & Hcl1 & Hp1 & Ha).
    destruct (IH s1 Hpc1 Hcl1 Hp1 Hr) as [? Hd].
    split; [done|]. intros e [<-|?]%elem_of_cons; [by eapply Ha|by eapply Hd].
Qed.

(** A handler that has answered 500 stays returned, and its channel
    stays out of the registry. *)
Lemma step_unsupported a s s' h :
  pc_of s h = Some (HReturned StreamingUnsupported) → clients s !! h = None →
  step len a s = Some s' →
  pc_of s' h = Some (HReturned StreamingUnsupported) ∧ clients s' !! h = None ∧
  a ≠ ARegister h.
Proof.
  intros Hpc Hcl Hs. destruct a; step_inv Hs.
  all: try (split_and!; [| |done]).
  all: try (destruct (decide (h0 = h)) as [->|]).
  all: lookups.
  all: try congruence.
  all: split_and!; [done|done|congruence].
Qed.

(** C7.  When [rw] is not an [http.Flusher], [ServeHTTP] answers with the
    error and returns before it makes or registers a channel: the
    broker is as it was, and in no later schedule does a registration
    for this connection reach the loop or an entry for it appear in the
    registry. *)
Theorem no_flusher_no_registration s h rw :
  isFlusher rw = false → handlers s !! h = None → clients s !! h = None →
  ∃ s1, step len (AServe h rw) s = Some s1 ∧
    pc_of s1 h = Some (HReturned StreamingUnsupported) ∧
    Notifier s1 = Notifier s ∧ clients s1 = clients s ∧ loop s1 = loop s ∧
    watchers s1 = watchers s ∧
    ∀ acts s2, run len acts s1 = Some s2 →
      pc_of s2 h = Some (HReturned StreamingUnsupported) ∧ clients s2 !! h = None ∧
      (ARegister h ∉ acts).
Proof.
  intros Hf Hh Hcl. unfold step. rewrite Hh.
  eexists. split; [done|].
  unfold ServeHTTP_entry. rewrite Hf.
  split_and!; try done; [by lookups|].
  assert (∀ acts s1 s2,
    pc_of s1 h = Some (HReturned StreamingUnsupported) → clients s1 !! h = None →
    run len acts s1 = Some s2 →
    pc_of s2 h = Some (HReturned StreamingUnsupported) ∧ clients s2 !! h = None ∧
    (ARegister h ∉ acts)) as Hinv.
  { induction acts as [|a acts IH]; intros s1 s2 Hpc1 Hcl1 Hr; simpl in Hr.
    - simplify_eq. split_and!; [done..|]. apply not_elem_of_nil.
    - destruct (step len a s1) as [s1'|] eqn:Hs; [|done].
      destruct (step_unsupported _ _ _ _ Hpc1 Hcl1 Hs) as (? & ? & Ha).
      destruct (IH s1' s2) as (? & ? & Hn); [done..|].
      split_and!; [done..|]. intros [<-|?]%elem_of_cons; [done|by apply Hn]. }
  intros acts s2 Hr. eapply Hinv; [..|done]; by lookups.
Qed.

(** What a step does to the loop: it takes an event and enters the
    [range], or hands the event to the first pending channel, or
    leaves the program point of the loop alone. *)
Lemma step_loop a s s' :
  step len a s = Some s' →
  (∃ event order, a = AEvent event order ∧ loop s = LSelect ∧
     range_order (clients s) order ∧ loop s' = range_next event order) ∨
  (∃ h event rest, a = ADeliver h event ∧ loop s = LRange event (h :: rest) ∧
     loop s' = range_next event rest) ∨
  ((∀ event order, a ≠ AEvent event order) ∧ (∀ h event, a ≠ ADeliver h event) ∧
   loop s' = loop s).
Proof.
  intros Hs. destruct a; step_inv Hs.
  all: try (right; right; split_and!; [done|done|by lookups]).
  - left. eexists _, _. by split_and!.
  - right; left. eexists _, _, _. by split_and!.
Qed.

Lemma deliveries_other ch n a acts :
  (∀ event order, a ≠ AEvent event order) → (∀ h event, a ≠ ADeliver h event) →
  deliveries ch n (a :: acts) = deliveries ch n acts.
Proof. intros He Hd. destruct a; try done; [by destruct (He event order)|by destruct (Hd h event)]. Qed.

Lemma processed_other a acts :
  (∀ event order, a ≠ AEvent event order) → processed (a :: acts) = processed acts.
Proof. intros He. destruct a; try done. by destruct (He event order). Qed.

Lemma range_next_inv (event ev : Msg) rest p :
  range_next event rest = LRange ev p → ev = event ∧ p = rest.
Proof. destruct rest; simpl; [done|]. by intros [= -> ->]. Qed.

(** The invariant behind per-subscriber order: [pre] are the events the
    loop has taken so far; inside the [range] the event being sent is
    the last of them and the keys left are distinct. *)
Lemma fifo_from ch acts : ∀ s s' pre,
  run len acts s = Some s' →
  (∀ ev p, loop s = LRange ev p → NoDup p ∧ last pre = Some ev) →
  StronglySorted lt (deliveries ch (length pre) acts).*1 ∧
  ∀ k m, (k, m) ∈ deliveries ch (length pre) acts →
    length pre ≤ k ∧ (ch ∉ pending s → length pre < k) ∧
    ∃ j, k = S j ∧ (pre ++ processed acts) !! j = Some m.
Proof.
  induction acts as [|a acts IH]; intros s s' pre Hr Hinv; simpl in Hr.
  { split; [constructor|]. intros k m Hin. by apply elem_of_nil in Hin. }
  destruct (step len a s) as [s1|] eqn:Hs; [|done].
  destruct (step_loop _ _ _ Hs)
    as [(event & order & -> & Hl & Ho & Hl1)|[(h & event & rest & -> & Hl & Hl1)|(He & Hd & Hl1)]].
  - (* l.107 *)
    destruct (IH s1 s' (pre ++ [event]) Hr) as [Hsort Hall].
    { intros ev p Hp. rewrite Hl1 in Hp. apply range_next_inv in Hp as [-> ->].
      split; [apply Ho|apply last_snoc]. }
    rewrite length_app in Hsort, Hall. simpl in Hsort, Hall.
    replace (length pre + 1) with (S (length pre)) in Hsort, Hall by lia.
    simpl. split; [done|]. intros k m Hin.
    destruct (Hall k m Hin) as (Hle & _ & j & -> & Hj).
    split_and!; [lia|lia|]. exists j. split; [done|].
    by rewrite <- app_assoc in Hj.
  - (* l.112 *)
    destruct (Hinv _ _ Hl) as [Hnd Hlast].
    apply NoDup_cons in Hnd as [Hh Hnd].
    destruct (IH s1 s' pre Hr) as [Hsort Hall].
    { intros ev p Hp. rewrite Hl1 in Hp. apply range_next_inv in Hp as [-> ->]. done. }
    assert (pending s1 = rest) as Hp1.
    { unfold pending. rewrite Hl1. apply keys_left_range_next. }
    assert (pending s = h :: rest) as Hp0 by (unfold pending; by rewrite Hl).
    simpl. destruct (decide (h = ch)) as [->|Hne].
    + split.
      * simpl. constructor; [done|]. apply Forall_forall. intros k Hk.
        apply list_elem_of_fmap in Hk as ([k' m] & -> & Hin). simpl.
        destruct (Hall k' m Hin) as (_ & Hlt & _). apply Hlt. by rewrite Hp1.
      * intros k m [[= -> ->]|Hin]%elem_of_cons.
        -- split_and!; [done|rewrite Hp0; set_solver|].
           apply last_Some in Hlast as [pre' ->].
           exists (length pre'). split; [rewrite length_app; simpl; lia|].
           rewrite <- app_assoc. simpl. by apply list_lookup_middle.
        -- destruct (Hall k m Hin) as (Hle & Hlt & Hj).
           split_and!; [done| |done]. intros _. apply Hlt. by rewrite Hp1.
    + split; [done|]. intros k m Hin.
      destruct (Hall k m Hin) as (Hle & Hlt & Hj).
      split_and!; [done| |done]. intros Hn. apply Hlt. rewrite Hp1.
      rewrite Hp0 in Hn. set_solver.
  - (* the loop does not move *)
    rewrite deliveries_other, processed_other by done.
    destruct (IH s1 s' pre Hr) as [Hsort Hall].
    { intros ev p Hp. apply Hinv. by rewrite <- Hl1. }
    split; [done|]. intros k m Hin.
    destruct (Hall k m Hin) as (Hle & Hlt & Hj).
    split_and!; [done| |done]. intros Hn. apply Hlt. unfold pending in *. by rewrite Hl1.
Qed.


(** One step of the producer: the unit it reads is passed on, the
    message it was blocked on is taken by [Notifier]. *)
Lemma step_producer a s s' :
  step len a s = Some s' →
  prompt_mode s' = prompt_mode s ∧
  unsent s ++ passed_on len s (units [a]) = published [a] ++ unsent s'.
Proof.
  intros Hs. destruct a; step_inv Hs.
  all: unfold passed_on, prompt_mode, unsent; simpl.
  all: repeat match goal with H : producer _ = _ |- _ => rewrite H end; simpl.
  all: try done.
  all: try (by destruct (producer s)).
  all: try (by destruct (verbose s)).
  all: try (rewrite filter_cons, ?decide_True, ?decide_False by done; done).
Qed.

Lemma units_cons a acts : units (a :: acts) = units [a] ++ units acts.
Proof. unfold units. simpl. by rewrite app_nil_r. Qed.

Lemma published_cons a acts : published (a :: acts) = published [a] ++ published acts.
Proof. unfold published. simpl. by rewrite app_nil_r. Qed.

Lemma passed_on_app s us1 us2 :
  passed_on len s (us1 ++ us2) = passed_on len s us1 ++ passed_on len s us2.
Proof. unfold passed_on. destruct (prompt_mode s); [apply filter_app|done]. Qed.

Lemma producer_from acts s s' :
  run len acts s = Some s' →
  unsent s ++ passed_on len s (units acts) = published acts ++ unsent s'.
Proof.
  revert s. induction acts as [|a acts IH]; intros s Hr; simpl in Hr.
  - simplify_eq. unfold passed_on. simpl. destruct (prompt_mode s'); simpl; by rewrite app_nil_r.
  - destruct (step len a s) as [s1|] eqn:Hs; [|done].
    destruct (step_producer _ _ _ Hs) as [Hm Ha].
    rewrite units_cons, published_cons.
    rewrite passed_on_app, app_assoc, Ha, <- !app_assoc.
    f_equal. rewrite <- (IH s1 Hr). unfold passed_on. by rewrite Hm.
Qed.

(** C10, amended.  The scanning producer of [main] passes every unit it
    reads on to [Notifier], an empty line included, one message per unit
    and in the order read; [PromptHandler] does the same for the lines
    that are not empty and passes no message on for an empty line.
    (The last unit may still be waiting for room in [Notifier].) *)
Theorem producer_passes_units_on p v acts s :
  run len acts (main p v) = Some s →
  published acts ++ unsent s =
    if p then filter (λ m, 0 < len m) (units acts) else units acts.
Proof.
  intros Hr. rewrite <- (producer_from _ _ _ Hr).
  unfold passed_on, prompt_mode, unsent. by destruct p.
Qed.

Lemma closings_snoc h acts a :
  closings h (acts ++ [a]) = closings h acts + (if is_closing h a then 1 else 0).
Proof.
  unfold closings. rewrite filter_app, length_app. f_equal.
  rewrite filter_cons. by destruct (is_closing h a).
Qed.

Lemma notified_snoc h acts a :
  ACloseNotify h ∈ acts ++ [a] ↔ ACloseNotify h ∈ acts ∨ a = ACloseNotify h.
Proof. set_solver. Qed.

Lemma closing_inv_step h acts a s s' :
  closing_inv h acts s → step len a s = Some s' → closing_inv h (acts ++ [a]) s'.
Proof.
  intros Hinv Hs. destruct a; step_inv Hs.
  all: try (destruct (decide (h0 = h)) as [->|]).
  all: unfold closing_inv, pc_of, set_pc, set_handlers, set_watchers, set_broker,
         set_producer in *.
  all: simpl in *; simplify_map_eq.
  all: repeat case_match; simplify_eq.
  all: rewrite ?closings_snoc; simpl.
  all: rewrite ?bool_decide_eq_true_2, ?bool_decide_eq_false_2 by done.
  all: rewrite ?notified_snoc.
  all: try congruence.
  all: naive_solver lia.
Qed.

Lemma closing_inv_run h p v acts s :
  run len acts (main p v) = Some s → closing_inv h acts s.
Proof.
  revert s. induction acts as [|a acts IH] using rev_ind; intros s Hr.
  - simpl in Hr. simplify_eq. unfold closing_inv, pc_of. simpl.
    rewrite !lookup_empty. simpl. split_and!; [done..|]. apply not_elem_of_nil.
  - apply run_snoc in Hr as (s1 & Hr & Hs). eapply closing_inv_step; eauto.
Qed.

(** A watcher, once started, is never removed. *)
Lemma watcher_stays acts s s' h :
  is_Some (watchers s !! h) → run len acts s = Some s' → is_Some (watchers s' !! h).
Proof.
  revert s. induction acts as [|a acts IH]; intros s Hw Hr; simpl in Hr.
  - by simplify_eq.
  - destruct (step len a s) as [s1|] eqn:Hs; [|done].
    apply (IH s1); [|done]. clear IH Hr.
    destruct a; step_inv Hs.
    all: try (destruct (decide (h0 = h)) as [->|]).
    all: lookups.
Qed.

(** C3, amended.  Count the sends on [closingClients] for the channel of
    a handler: those the loop has taken and those a goroutine is blocked
    in.  Along every schedule there is at most one; there is exactly one
    once the transport has reported the disconnect, and exactly one when
    the handler unwinds. *)
Theorem deregistration_submitted_once p v acts s h :
  run len acts (main p v) = Some s →
  closings h acts + blocked_closings h s ≤ 1 ∧
  (ACloseNotify h ∈ acts → closings h acts + blocked_closings h s = 1) ∧
  (pc_of s h = Some HDeferred ∨ pc_of s h = Some (HReturned Panicked) →
   closings h acts + blocked_closings h s = 1).
Proof.
  intros Hr. pose proof (closing_inv_run h _ _ _ _ Hr) as Hinv.
  unfold closing_inv, blocked_closings, pc_of in *.
  repeat case_match; simplify_eq; naive_solver lia.
Qed.


(** A step in which the loop takes no part leaves the registry as it is. *)
Lemma non_loop_keeps_registry a s s' :
  CLoop ∉ contexts a → step len a s = Some s' → clients s' = clients s.
Proof.
  intros Hc Hs. destruct a; step_inv Hs; try done.
  all: exfalso; apply Hc; simpl; by repeat constructor.
Qed.

(** Apart from the two printing steps of the producers, a step in which
    the loop takes no part does not depend on the registry. *)
Lemma non_loop_ignores_registry a s1 s2 :
  CLoop ∉ contexts a → a ≠ APrompt → a ≠ ALog → same_but_clients s1 s2 →
  option_Forall2 same_but_clients (step len a s1) (step len a s2).
Proof.
  intros Hc Hp Hl (Hn & Hlo & Hh & Hw & Hpr & Hv & Ho).
  destruct a as [| | |? []| | | | | | | |]; try done;
    try (exfalso; apply Hc; simpl; by repeat constructor).
  all: unfold step; rewrite <- ?Hn, <- ?Hlo, <- ?Hh, <- ?Hw, <- ?Hpr, <- ?Hv, <- ?Ho.
  all: repeat case_match; try constructor.
  all: unfold same_but_clients; simpl; try by split_and!.
  all: by rewrite <- ?Hn, <- ?Hlo, <- ?Hh, <- ?Hw, <- ?Hpr, <- ?Hv, <- ?Ho.
Qed.

(** C4, amended.  Outside the coordination loop nothing ever writes the
    registry, and the handlers, their watchers and the transport never
    read it either; the only reads outside the loop are the two
    diagnostics of the producers, which print the number of clients
    (l.123 and l.160). *)
Theorem registry_outside_the_loop a :
  CLoop ∉ contexts a →
  ¬ writes_registry len a ∧ (reads_registry len a → a = APrompt ∨ a = ALog).
Proof.
  intros Hc. split.
  - intros (s & s' & Hs & Hne). apply Hne. by eapply non_loop_keeps_registry.
  - intros (s1 & s2 & Hsame & Hn).
    assert (a = APrompt ∨ a = ALog ∨ (a ≠ APrompt ∧ a ≠ ALog)) as [|[|[? ?]]]
      by (destruct a; naive_solver); [by left|by right|].
    exfalso. apply Hn. by apply non_loop_ignores_registry.
Qed.

(** ** Further properties of the loop, the handlers and the producers *)

Lemma step_clients a s s' :
  step len a s = Some s' → clients s' = listen (intake_of a) (clients s).
Proof. intros Hs. destruct a as [| | |? []| | | | | | | |]; by step_inv Hs. Qed.

(** Along every schedule, the registry is what [listen] makes of the
    values the loop has received on [newClients] and [closingClients]:
    no other step of the program changes it. *)
Theorem run_registry_is_listen acts s s' :
  run len acts s = Some s' → clients s' = listen (intakes acts) (clients s).
Proof.
  revert s. induction acts as [|a acts IH]; intros s Hr; simpl in Hr.
  - by simplify_eq.
  - destruct (step len a s) as [s1|] eqn:Hs; [|done].
    rewrite (IH s1 Hr), (step_clients _ _ _ Hs).
    unfold intakes, listen. simpl. by rewrite foldl_app.
Qed.

Lemma step_notifier a s s' :
  step len a s = Some s' →
  Notifier s ++ published [a] = processed [a] ++ Notifier s' ∧
  (length (Notifier s) ≤ 1 → length (Notifier s') ≤ 1).
Proof.
  intros Hs. destruct a; step_inv Hs; simpl.
  all: repeat match goal with H : Notifier _ = _ |- _ => rewrite H end; simpl.
  all: rewrite ?app_nil_r; split; try done; simpl; lia.
Qed.

Lemma processed_cons a acts : processed (a :: acts) = processed [a] ++ processed acts.
Proof. unfold processed. simpl. by rewrite app_nil_r. Qed.

Lemma notifier_from acts s s' :
  run len acts s = Some s' →
  Notifier s ++ published acts = processed acts ++ Notifier s' ∧
  (length (Notifier s) ≤ 1 → length (Notifier s') ≤ 1).
Proof.
  revert s. induction acts as [|a acts IH]; intros s Hr; simpl in Hr.
  - simplify_eq. by rewrite app_nil_r.
  - destruct (step len a s) as [s1|] eqn:Hs; [|done].
    destruct (step_notifier _ _ _ Hs) as [Ha Hl].
    destruct (IH s1 Hr) as [Hb Hl'].
    split; [|auto].
    rewrite published_cons, processed_cons, app_assoc, Ha, <- !app_assoc.
    by rewrite Hb.
Qed.

(** [Notifier] is a queue of at most one message between the producer
    and the loop: the messages it has taken are, in the same order, the
    events the loop has taken from it followed by the one it still
    holds.  No message is lost, repeated or reordered on the way. *)
Theorem notifier_is_a_one_place_queue p v acts s :
  run len acts (main p v) = Some s →
  published acts = processed acts ++ Notifier s ∧ length (Notifier s) ≤ 1.
Proof.
  intros Hr. destruct (notifier_from _ _ _ Hr) as [Ha Hl].
  split; [done|]. apply Hl. simpl. lia.
Qed.

Lemma delivered_cons a acts : delivered (a :: acts) = delivered [a] ++ delivered acts.
Proof. unfold delivered. simpl. by rewrite app_nil_r. Qed.

(** The loop takes nothing from [newClients] and [closingClients] while
    it is inside the [range]. *)
Lemma step_frozen a s s' :
  loop s ≠ LSelect → step len a s = Some s' → clients s' = clients s.
Proof. intros Hl Hs. destruct a as [| | |? []| | | | | | | |]; by step_inv Hs. Qed.

(** Between two events: the hand-overs use up the keys the [range] has
    still to visit, they all carry the event of the [range], and the
    registry does not change before the [range] is over. *)
Lemma fanout_from acts s s' :
  run len acts s = Some s' → (∀ e o, AEvent e o ∉ acts) →
  delivered acts ++ pending s' = pending s ∧
  (∀ h m, ADeliver h m ∈ acts → ∃ p, loop s = LRange m p) ∧
  (loop s = LSelect → loop s' = LSelect) ∧
  (loop s' ≠ LSelect → clients s' = clients s).
Proof.
  revert s. induction acts as [|a acts IH]; intros s Hr Hne; simpl in Hr.
  { simplify_eq. split_and!; try done. intros h m Hin. by apply elem_of_nil in Hin. }
  destruct (step len a s) as [s1|] eqn:Hs; [|done].
  destruct (IH s1 Hr) as (Hd & Hm & Hsel & Hcl).
  { intros e o Hin. apply (Hne e o). by right. }
  assert (loop s' ≠ LSelect → clients s' = clients s) as Hfrozen.
  { intros Hn. rewrite (Hcl Hn). apply (step_frozen a); [|done].
    intros Hl. apply Hn, Hsel.
    destruct (step_loop _ _ _ Hs)
      as [(event & order & -> & _)|[(h & event & rest & -> & Hl' & _)|(_ & _ & Hl1)]].
    - destruct (Hne event order). by left.
    - congruence.
    - congruence. }
  destruct (step_loop _ _ _ Hs)
    as [(event & order & -> & _)|[(h & event & rest & -> & Hl & Hl1)|(He & Hdl & Hl1)]].
  - destruct (Hne event order). by left.
  - rewrite delivered_cons. simpl.
    assert (pending s1 = rest) as Hp1.
    { unfold pending. rewrite Hl1. apply keys_left_range_next. }
    split_and!; [| |by rewrite Hl|done].
    + rewrite Hd, Hp1. unfold pending. by rewrite Hl.
    + intros h' m [[= <- <-]|Hin]%elem_of_cons; [by eexists|].
      destruct (Hm _ _ Hin) as [p' Hp']. rewrite Hl1 in Hp'.
      apply range_next_inv in Hp' as [-> _]. by eexists.
  - assert (delivered [a] = []) as Hda.
    { destruct a; try done. by destruct (Hdl h event). }
    rewrite delivered_cons, Hda. simpl.
    assert (pending s1 = pending s) as Hp1 by (unfold pending; by rewrite Hl1).
    split_and!; [| | |done].
    + by rewrite Hd, Hp1.
    + intros h m [<-|Hin]%elem_of_cons; [by destruct (Hdl h m)|].
      destruct (Hm _ _ Hin) as [p' Hp']. rewrite Hl1 in Hp'. by eexists.
    + intros Hl. apply Hsel. by rewrite Hl1.
Qed.

(** An event goes to the subscribers of the moment the loop takes it:
    until the next event is taken, the channels that have been handed
    the event followed by those still to visit are the keys of the
    registry as it was then, each once, in the order of the [range]; no
    other event is handed over, and the registry does not change before
    the last key is served.  With no subscriber ([order] empty) the
    event is dropped. *)
Theorem fanout_serves_the_snapshot s event order s1 acts s2 :
  step len (AEvent event order) s = Some s1 → run len acts s1 = Some s2 →
  (∀ e o, AEvent e o ∉ acts) →
  range_order (clients s) order ∧
  delivered acts ++ pending s2 = order ∧
  (∀ h m, ADeliver h m ∈ acts → m = event) ∧
  (loop s2 ≠ LSelect → clients s2 = clients s).
Proof.
  intros Hs Hr Hne.
  destruct (fanout_from _ _ _ Hr Hne) as (Hd & Hm & _ & Hcl).
  pose proof (step_clients _ _ _ Hs) as Hc. simpl in Hc.
  destruct (step_loop _ _ _ Hs)
    as [(ev & o & [= <- <-] & _ & Ho & Hl1)|[(? & ? & ? & [=] & _)|(He & _)]];
    [|by destruct (He event order)].
  split_and!; [done| | |].
  - rewrite Hd. unfold pending. rewrite Hl1. apply keys_left_range_next.
  - intros h m Hin. destruct (Hm _ _ Hin) as [p Hp]. rewrite Hl1 in Hp.
    by apply range_next_inv in Hp as [-> _].
  - intros Hn. by rewrite (Hcl Hn), Hc.
Qed.

(** A handler in its deferred send leaves it only through the loop. *)
Lemma step_deferred a s s' h :
  pc_of s h = Some HDeferred → step len a s = Some s' → CLoop ∉ contexts a →
  pc_of s' h = Some HDeferred.
Proof.
  intros Hpc Hs Hc. destruct a as [| | |? []| | | | | | | |]; step_inv Hs.
  all: try (destruct Hc; simpl; by repeat constructor).
  all: try (destruct (decide (h0 = h)) as [->|]).
  all: lookups.
  all: congruence.
Qed.

(** When a transport that has no close notification makes the handler
    unwind (l.75), the deferred send of l.71 waits for the [select] of the
    loop.  If the loop has meanwhile taken an event and reached the
    channel of that handler in its [range], it waits in l.112 for a
    receive that never comes: no schedule moves the loop or the handler
    again, so no subscriber is served, registered or deregistered from
    then on. *)
Theorem deferred_send_deadlocks_the_loop s event h rest acts s' :
  loop s = LRange event (h :: rest) → pc_of s h = Some HDeferred →
  run len acts s = Some s' →
  loop s' = LRange event (h :: rest) ∧ pc_of s' h = Some HDeferred ∧
  clients s' = clients s ∧ Forall (λ a, CLoop ∉ contexts a) acts.
Proof.
  revert s. induction acts as [|a acts IH]; intros s Hl Hpc Hr; simpl in Hr.
  - by simplify_eq.
  - destruct (step len a s) as [s1|] eqn:Hs; [|done].
    destruct (step_in_range _ _ _ _ _ _ Hl Hs) as [(-> & Hrecv & _)|(Hc & Hl1 & _)];
      [congruence|].
    destruct (IH s1) as (? & ? & Hcl & ?);
      [congruence|by eapply step_deferred|done|].
    split_and!; [done|done| |by constructor].
    rewrite Hcl. apply (step_frozen a); [by rewrite Hl|done].
Qed.

Lemma registry_inv_step h a s s' :
  registry_inv s h → step len a s = Some s' → registry_inv s' h.
Proof.
  intros Hinv Hs. destruct a as [| | |? []| | | | | | | |]; step_inv Hs.
  all: try (destruct (decide (h0 = h)) as [->|]).
  all: unfold registry_inv, pc_of, set_pc, set_handlers, set_watchers, set_broker,
         set_producer, register, deregister in *.
  all: simpl in *; simplify_map_eq.
  all: repeat case_match; simplify_eq.
  all: try congruence.
  all: naive_solver.
Qed.

Lemma registry_inv_run h p v acts s :
  run len acts (main p v) = Some s → registry_inv s h.
Proof.
  revert s. induction acts as [|a acts IH] using rev_ind; intros s Hr.
  - simpl in Hr. simplify_eq. unfold registry_inv, pc_of. simpl.
    by rewrite !lookup_empty.
  - apply run_snoc in Hr as (s1 & Hr & Hs). eapply registry_inv_step; eauto.
Qed.

(** The registry holds the channel of a handler exactly from the moment
    the loop has taken its registration until it takes a send on
    [closingClients] for it: the channel is a key if and only if the
    handler is in its relay loop with its watcher not yet through, or is
    in its deferred send; and every entry is [true].  A handler that has
    not registered, has answered 500 or has been deregistered has no
    entry. *)
Theorem registry_tracks_the_handlers p v acts s h :
  run len acts (main p v) = Some s →
  (clients s !! h = Some true ↔ attached s h) ∧
  (clients s !! h = None ↔ ¬ attached s h).
Proof.
  intros Hr. pose proof (registry_inv_run h _ _ _ _ Hr) as Hinv.
  unfold registry_inv, attached, pc_of in *.
  repeat case_match; simplify_eq; naive_solver.
Qed.

Lemma step_ended a s s' :
  producer s = PEnd → step len a s = Some s' →
  producer s' = PEnd ∧ published [a] = [] ∧ stdout s' = stdout s.
Proof.
  intros Hp Hs. destruct a as [| | |? []| | | | | | | |]; step_inv Hs; congruence.
Qed.

Lemma step_ends a s s' :
  step len a s = Some s' → producer s' = PEnd →
  producer s = PEnd ∨ a = AScan None.
Proof.
  intros Hs Hp. destruct a as [| | |? []| | | | | | | |]; step_inv Hs; simpl in *.
  all: try (by left); try (by right).
  all: try (destruct (verbose s); simplify_eq).
Qed.

Lemma prompt_mode_run acts s s' :
  run len acts s = Some s' → prompt_mode s' = prompt_mode s.
Proof.
  revert s. induction acts as [|a acts IH]; intros s Hr; simpl in Hr.
  - by simplify_eq.
  - destruct (step len a s) as [s1|] eqn:Hs; [|done].
    rewrite (IH s1 Hr). by destruct (step_producer _ _ _ Hs).
Qed.

Lemma ends_from acts s s' :
  run len acts s = Some s' → producer s' = PEnd →
  producer s = PEnd ∨ AScan None ∈ acts.
Proof.
  revert s. induction acts as [|a acts IH]; intros s Hr Hp; simpl in Hr.
  - simplify_eq. by left.
  - destruct (step len a s) as [s1|] eqn:Hs; [|done].
    destruct (IH s1 Hr Hp) as [Hp1|Hin]; [|right; by right].
    destruct (step_ends _ _ _ Hs Hp1) as [ | -> ]; [by left|right; by left].
Qed.

Lemma ended_from acts s s' :
  producer s = PEnd → run len acts s = Some s' →
  producer s' = PEnd ∧ published acts = [] ∧ stdout s' = stdout s.
Proof.
  revert s. induction acts as [|a acts IH]; intros s Hp Hr; simpl in Hr.
  - by simplify_eq.
  - destruct (step len a s) as [s1|] eqn:Hs; [|done].
    destruct (step_ended _ _ _ Hp Hs) as (Hp1 & Ha & Ho).
    destruct (IH s1 Hp1 Hr) as (? & Hb & ?).
    split_and!; [done| |congruence].
    by rewrite published_cons, Ha, Hb.
Qed.

(** The producer stops only in one way: it is the scanning goroutine of
    [main] and [scan.Scan()] has returned false (l.155).  From then on
    nothing is published or printed, whatever else happens.
    [PromptHandler] never stops: after a read error it prints the error
    and prompts again (l.122-133). *)
Theorem producer_stops_only_when_scan_fails p v acts s :
  run len acts (main p v) = Some s → producer s = PEnd →
  p = false ∧ (AScan None ∈ acts) ∧
  ∀ acts' s', run len acts' s = Some s' →
    producer s' = PEnd ∧ published acts' = [] ∧ stdout s' = stdout s.
Proof.
  intros Hr Hp. split_and!.
  - pose proof (prompt_mode_run _ _ _ Hr) as Hm.
    unfold prompt_mode in Hm. rewrite Hp in Hm. simpl in Hm. by destruct p.
  - destruct (ends_from _ _ _ Hr Hp) as [Hp0|]; [|done].
    simpl in Hp0. by destruct p.
  - intros acts' s' Hr'. by eapply ended_from.
Qed.

Lemma deliveries_app ch n acts1 acts2 :
  deliveries ch n (acts1 ++ acts2) =
  deliveries ch n acts1 ++ deliveries ch (n + length (processed acts1)) acts2.
Proof.
  revert n. induction acts1 as [|a acts1 IH]; intros n; simpl.
  - by rewrite Nat.add_0_r.
  - destruct a; rewrite ?IH; simpl; try done.
    + unfold processed. simpl. by rewrite Nat.add_succ_r.
    + by destruct (decide (h = ch)).
Qed.

(** A handler that has not yet passed its registration had not passed
    it before either, and has received nothing. *)
Lemma unregistered_back a s s' h :
  step len a s = Some s' →
  pc_of s' h = None ∨ pc_of s' h = Some HSendNew →
  (pc_of s h = None ∨ pc_of s h = Some HSendNew) ∧ ∀ m, a ≠ ADeliver h m.
Proof.
  intros Hs Hpc. destruct a as [| | |? []| | | | | | | |]; step_inv Hs.
  all: try (destruct (decide (h0 = h)) as [->|]).
  all: lookups.
  all: try naive_solver.
Qed.

Lemma unregistered_run h acts s s' :
  run len acts s = Some s' →
  pc_of s' h = None ∨ pc_of s' h = Some HSendNew →
  (pc_of s h = None ∨ pc_of s h = Some HSendNew) ∧ ∀ n, deliveries h n acts = [].
Proof.
  revert s. induction acts as [|a acts IH]; intros s Hr Hpc; simpl in Hr.
  - by simplify_eq.
  - destruct (step len a s) as [s1|] eqn:Hs; [|done].
    destruct (IH s1 Hr Hpc) as [Hpc1 Hd].
    destruct (unregistered_back _ _ _ _ Hs Hpc1) as [Hpc0 Ha].
    split; [done|]. intros n. destruct a; simpl; try done.
    destruct (decide (h0 = h)) as [->|]; [by destruct (Ha event)|done].
Qed.

(** A subscriber receives no event that the loop took before it took
    the registration of the subscriber: every event it receives has a
    number greater than the number of events taken until then. *)
Theorem late_subscriber_gets_no_earlier_event acts1 s s1 h s1' acts2 s2 :
  run len acts1 s = Some s1 → step len (ARegister h) s1 = Some s1' →
  run len acts2 s1' = Some s2 →
  ∀ k m, (k, m) ∈ deliveries h 0 (acts1 ++ ARegister h :: acts2) →
    length (processed acts1) < k.
Proof.
  intros Hr1 Hs Hr2 k m.
  assert (pc_of s1 h = Some HSendNew ∧ loop s1' = LSelect) as [Hpc Hl].
  { step_inv Hs; lookups; split; congruence. }
  destruct (unregistered_run h _ _ _ Hr1) as [_ Hd]; [by right|].
  rewrite deliveries_app, Hd. simpl.
  destruct (fifo_from h acts2 s1' s2 (processed acts1) Hr2) as [_ Hall].
  { intros ev p Hp. congruence. }
  intros Hin. destruct (Hall k m Hin) as (_ & Hlt & _).
  apply Hlt. unfold pending. rewrite Hl. apply not_elem_of_nil.
Qed.

Lemma received_snoc h acts a : received h (acts ++ [a]) = received h acts ++ received h [a].
Proof. unfold received. by rewrite bind_app. Qed.

Lemma failed_writes_snoc h acts a :
  failed_writes h (acts ++ [a]) =
  failed_writes h acts + (if is_failed_write h a then 1 else 0).
Proof.
  unfold failed_writes. rewrite filter_app, length_app. f_equal.
  rewrite filter_cons. by destruct (is_failed_write h a).
Qed.

(** What a handler has on its transport, against what it has received:
    [pre] are the events whose write is over. *)
Lemma writes_inv_step h acts a s s' pre :
  step len a s = Some s' →
  received h acts = pre ++ writing s h →
  out_of s h `sublist_of` pre →
  length pre = length (out_of s h) + failed_writes h acts →
  (failed_writes h acts = 0 → out_of s h = pre) →
  ∃ pre', received h (acts ++ [a]) = pre' ++ writing s' h ∧
    out_of s' h `sublist_of` pre' ∧
    length pre' = length (out_of s' h) + failed_writes h (acts ++ [a]) ∧
    (failed_writes h (acts ++ [a]) = 0 → out_of s' h = pre').
Proof.
  intros Hs Hrec Hsub Hlen Hall.
  destruct a as [| | |? []| | |? []| | | | |]; step_inv Hs.
  all: rewrite received_snoc, failed_writes_snoc.
  all: try (destruct (decide (h0 = h)) as [->|]).
  all: unfold received, out_of, writing, pc_of, set_pc, set_handlers, set_watchers,
         set_broker, set_producer in *.
  all: simpl in *; simplify_map_eq.
  all: repeat match goal with H : h_pc _ = _ |- _ => rewrite H in * end; simpl in *.
  all: rewrite ?bool_decide_eq_true_2, ?bool_decide_eq_false_2 by done.
  all: rewrite ?decide_True, ?decide_False by done.
  all: simpl; rewrite ?app_nil_r, ?Nat.add_0_r in *.
  all: try (exists pre; rewrite ?app_nil_r; split_and!; (done || congruence)).
  - match type of Hrec with _ = pre ++ [?m] => exists (pre ++ [m]) end.
    rewrite app_nil_r, !length_app. simpl.
    split_and!; [done|by apply sublist_app|lia|intros Hz; by rewrite (Hall Hz)].
  - match type of Hrec with _ = pre ++ [?m] => exists (pre ++ [m]) end.
    rewrite app_nil_r, length_app. simpl.
    split_and!; [done|by apply sublist_inserts_r|lia|lia].
Qed.

Lemma writes_inv_run h p v acts s :
  run len acts (main p v) = Some s →
  ∃ pre, received h acts = pre ++ writing s h ∧
    out_of s h `sublist_of` pre ∧
    length pre = length (out_of s h) + failed_writes h acts ∧
    (failed_writes h acts = 0 → out_of s h = pre).
Proof.
  revert s. induction acts as [|a acts IH] using rev_ind; intros s Hr.
  - simpl in Hr. simplify_eq. exists []. unfold out_of, writing, pc_of. simpl.
    rewrite !lookup_empty. by split_and!.
  - apply run_snoc in Hr as (s1 & Hr & Hs).
    destruct (IH s1 Hr) as (pre & ? & ? & ? & ?).
    by eapply writes_inv_step.
Qed.

(** What a handler writes is what it received, in order and without
    repetition: the events written are a subsequence of the events
    received on the channel; every event received is written, is being
    written, or was lost to a failed write, which is not tried again;
    and when no write has failed, the events written followed by the
    one being written are exactly the events received. *)
Theorem handler_writes_what_it_receives p v acts s h :
  run len acts (main p v) = Some s →
  out_of s h `sublist_of` received h acts ∧
  length (received h acts) =
    length (out_of s h) + failed_writes h acts + length (writing s h) ∧
  (failed_writes h acts = 0 → received h acts = out_of s h ++ writing s h).
Proof.
  intros Hr. destruct (writes_inv_run h _ _ _ _ Hr) as (pre & -> & Hsub & Hlen & Hall).
  split_and!.
  - by apply sublist_inserts_r.
  - rewrite length_app. lia.
  - intros Hz. by rewrite (Hall Hz).
Qed.


Lemma run_cons a acts s s1 s' :
  step len a s = Some s1 → run len acts s1 = Some s' → run len (a :: acts) s = Some s'.
Proof. intros Hs Hr. simpl. by rewrite Hs. Qed.

(** The hand-over of l.112 to a handler that waits in l.86. *)
Lemma deliver_ready s event c rest :
  loop s = LRange event (c :: rest) → pc_of s c = Some HRecv →
  ∃ s1, step len (ADeliver c event) s = Some s1 ∧
    loop s1 = range_next event rest ∧ pc_of s1 c = Some (HWrite event) ∧
    clients s1 = clients s ∧ ∀ c', c' ≠ c → pc_of s1 c' = pc_of s c'.
Proof.
  intros Hl Hpc. unfold pc_of in Hpc.
  destruct (handlers s !! c) as [hd|] eqn:Hh; [|done].
  injection Hpc as Hpc.
  unfold step. rewrite Hl, Hh, Hpc. rewrite decide_True by done.
  eexists. split; [done|]. split_and!; try by lookups.
  intros c' Hne. by lookups.
Qed.

(** When every subscriber the [range] has still to visit waits on its
    channel, the fan-out runs to its end: handing the event over in the
    order of the [range] is a schedule of the program, after which the
    loop is back in its [select], each of these subscribers is writing
    the event, and the registry and the other handlers are as before. *)
Theorem fanout_completes_when_all_wait s event p :
  loop s = range_next event p → NoDup p →
  (∀ c, c ∈ p → pc_of s c = Some HRecv) →
  ∃ s', run len ((λ c, ADeliver c event) <$> p) s = Some s' ∧
    loop s' = LSelect ∧
    (∀ c, c ∈ p → pc_of s' c = Some (HWrite event)) ∧
    (∀ c, c ∉ p → pc_of s' c = pc_of s c) ∧
    clients s' = clients s.
Proof.
  revert s. induction p as [|c rest IH]; intros s Hl Hnd Hall.
  - exists s. split_and!; try done. intros c Hin. by apply elem_of_nil in Hin.
  - apply NoDup_cons in Hnd as [Hc Hnd].
    destruct (deliver_ready s event c rest Hl) as (s1 & Hs & Hl1 & Hpc & Hcl & Hfr).
    { apply Hall. by left. }
    destruct (IH s1 Hl1 Hnd) as (s' & Hr & Hl' & Hw & Hfr' & Hcl').
    { intros c' Hin. rewrite Hfr; [apply Hall; by right|]. by intros ->. }
    exists s'. split_and!; [|done| | |congruence].
    + rewrite fmap_cons. by eapply run_cons.
    + intros c' [->|Hin]%elem_of_cons; [|by apply Hw].
      by rewrite (Hfr' c Hc).
    + intros c' Hn. apply not_elem_of_cons in Hn as [Hne Hn].
      by rewrite (Hfr' c' Hn), (Hfr c' Hne).
Qed.
End Schedules.

(** C1, as stated, fails: subscriber 1 is still writing "a" when the loop
    fans out "b" to the registered subscribers 1 and 2; subscriber 2 is
    waiting, yet as long as the write of subscriber 1 does not return,
    "b" is not offered to subscriber 2. *)
Lemma stalled_subscriber_delays_the_others :
  ∃ s, Ex.go Ex.stall (Ex.start false false) = Some s ∧
    clients s !! 1 = Some true ∧ clients s !! 2 = Some true ∧
    loop s = LRange "b" [1; 2] ∧
    pc_of s 1 = Some (HWrite "a") ∧ pc_of s 2 = Some HRecv ∧
    ∀ acts s', (∀ ok, AWritten 1 ok ∉ acts) → Ex.go acts s = Some s' →
               ADeliver 2 "b" ∉ acts.
Proof.
  eexists. split; [vm_compute; reflexivity|].
  split_and!; try reflexivity.
  intros acts s' Hw Hr.
  refine (proj2 (proj2 (stalled_blocks_loop String.length acts _ s' "b" 1 [2] "a"
                          _ _ Hw Hr)) 2 "b"); reflexivity.
Qed.

Lemma fanout_is_one_blocking_send_at_a_time_witness :
  ∃ s, Ex.go Ex.stall (Ex.start false false) = Some s ∧
    ∀ a s', step String.length a s = Some s' →
            a = ADeliver 1 "b" ∨ ((CLoop ∉ contexts a) ∧ loop s' = loop s).
Proof.
  eexists. split; [vm_compute; reflexivity|].
  apply (fanout_is_one_blocking_send_at_a_time String.length _ "b" 1 [2]).
  reflexivity.
Defined.

Lemma deregister_absent_is_noop_witness :
  listen [ClosingClient (Msg:=string) 1] {[2 := true]} = {[2 := true]}.
Proof.
  apply (deregister_absent_is_noop (Msg:=string) 1 {[2 := true]}).
  reflexivity.
Defined.

Lemma deregistered_handler_waits_forever_witness :
  ∃ s s', Ex.go Ex.disconnect (Ex.start false false) = Some s ∧
    Ex.go Ex.after_disconnect s = Some s' ∧
    pc_of s' 1 = Some HRecv ∧ ∀ e, ADeliver 1 e ∉ Ex.after_disconnect.
Proof.
  eexists _, _. split; [vm_compute; reflexivity|].
  match goal with |- Ex.go _ ?s = _ ∧ _ => set (s0 := s) end.
  split; [vm_compute; reflexivity|].
  apply (deregistered_handler_waits_forever String.length Ex.after_disconnect s0 _ 1).
  - reflexivity.
  - reflexivity.
  - apply not_elem_of_nil.
  - vm_compute. reflexivity.
Defined.

Lemma no_flusher_no_registration_witness :
  ∃ s1, step String.length (AServe 1 Ex.rw_plain) (Ex.start false false) = Some s1 ∧
    pc_of s1 1 = Some (HReturned StreamingUnsupported) ∧
    clients s1 = clients (Ex.start false false).
Proof.
  destruct (no_flusher_no_registration String.length (Ex.start false false) 1 Ex.rw_plain)
    as (s1 & Hs & Hpc & _ & Hcl & _); [reflexivity..|].
  exists s1. by split_and!.
Defined.


(** C10, as stated, fails for [PromptHandler]: of the three lines read,
    the empty one is not passed to [Notifier] and is not waiting to be,
    and no later schedule publishes it. *)
Lemma prompt_drops_the_empty_line :
  ∃ s, Ex.go Ex.prompt_lines (Ex.start true false) = Some s ∧
    units Ex.prompt_lines = ["a"; ""; "b"] ∧
    published Ex.prompt_lines ++ unsent s = ["a"; "b"] ∧
    ∀ acts s', Ex.go acts s = Some s' → "" ∉ published acts.
Proof.
  eexists. split; [vm_compute; reflexivity|].
  split_and!; [reflexivity..|].
  intros acts s' Hr Hin.
  pose proof (producer_from String.length acts _ s' Hr) as Hp.
  assert ("" ∈ published acts ++ unsent s') as Hin' by set_solver.
  rewrite <- Hp in Hin'. simpl in Hin'.
  apply list_elem_of_filter in Hin' as [Hlen _]. simpl in Hlen. lia.
Qed.

Lemma producer_passes_units_on_witness :
  ∃ s, Ex.go Ex.prompt_lines (Ex.start true false) = Some s ∧
    published Ex.prompt_lines ++ unsent s =
      filter (λ m, 0 < String.length m) (units Ex.prompt_lines).
Proof.
  eexists. split; [vm_compute; reflexivity|].
  apply (producer_passes_units_on String.length true false Ex.prompt_lines).
  vm_compute. reflexivity.
Defined.

(** C3, as stated, fails on a write failure: the error of [Fprintf] is
    dropped (l.86), the handler goes on waiting on its channel, which
    stays registered, and no send on [closingClients] is made or
    pending, now or later, unless the transport reports a disconnect. *)
Lemma failed_write_submits_no_deregistration :
  ∃ s, Ex.go Ex.write_fails (Ex.start false false) = Some s ∧
    AWritten 1 false ∈ Ex.write_fails ∧
    clients s !! 1 = Some true ∧ pc_of s 1 = Some HRecv ∧
    closings 1 Ex.write_fails + blocked_closings 1 s = 0 ∧
    ∀ acts s', (ACloseNotify 1 ∉ acts) → Ex.go acts s = Some s' →
      closings 1 (Ex.write_fails ++ acts) + blocked_closings 1 s' = 0.
Proof.
  eexists. split; [vm_compute; reflexivity|].
  match goal with |- _ ∧ (clients ?s !! _ = _) ∧ _ => set (s0 := s) end.
  split_and!; [set_solver|reflexivity..|].
  intros acts s' Hn Hr.
  assert (Ex.go (Ex.write_fails ++ acts) (Ex.start false false) = Some s') as Hall.
  { unfold Ex.go. rewrite run_app.
    replace (run String.length Ex.write_fails (Ex.start false false)) with (Some s0)
      by (vm_compute; reflexivity).
    exact Hr. }
  pose proof (closing_inv_run String.length 1 false false _ _ Hall) as Hinv.
  assert (is_Some (watchers s' !! 1)) as [w Hw].
  { eapply watcher_stays; [|exact Hr]. by eexists. }
  assert (ACloseNotify 1 ∉ Ex.write_fails ++ acts) as Hn'.
  { intros [Hin|Hin]%elem_of_app; [|done]. vm_compute in Hin. set_solver. }
  unfold closing_inv, blocked_closings, pc_of, conn, chan in *.
  repeat case_match; simplify_eq; naive_solver lia.
Qed.

Lemma deregistration_submitted_once_witness :
  ∃ s, Ex.go Ex.disconnect (Ex.start false false) = Some s ∧
    closings 1 Ex.disconnect + blocked_closings 1 s = 1.
Proof.
  eexists. split; [vm_compute; reflexivity|].
  match goal with |- _ + blocked_closings 1 ?s = 1 => set (s0 := s) end.
  refine (proj1 (proj2 (deregistration_submitted_once String.length false false
                          Ex.disconnect s0 1 _)) _).
  - vm_compute. reflexivity.
  - apply list_elem_of_lookup. by exists 2.
Defined.

(** C4, as stated, fails: the two printing steps of the producers are
    steps of the producer goroutine alone and their outcome depends on
    the registry; the prompt printed after one client has registered
    shows the size 1 of [clients]. *)
Lemma producers_read_the_registry :
  contexts (Msg:=string) APrompt = [CProducer] ∧
  contexts (Msg:=string) ALog = [CProducer] ∧
  reads_registry String.length APrompt ∧
  reads_registry String.length ALog ∧
  ∃ s, Ex.go Ex.prompt_count (Ex.start true false) = Some s ∧ stdout s = [OPrompt 1].
Proof.
  split_and!; [done|done| | |].
  - exists (Ex.start true false), (Ex.one_more (Ex.start true false)).
    split; [by repeat split|].
    intros H. vm_compute in H. inversion H as [? ? Hs|]; subst.
    destruct Hs as (_ & _ & _ & _ & _ & _ & Ho). discriminate Ho.
  - exists Ex.logging, (Ex.one_more Ex.logging).
    split; [by repeat split|].
    intros H. vm_compute in H. inversion H as [? ? Hs|]; subst.
    destruct Hs as (_ & _ & _ & _ & _ & _ & Ho). discriminate Ho.
  - eexists. split; [vm_compute; reflexivity|]. reflexivity.
Qed.

Lemma registry_outside_the_loop_witness :
  ¬ writes_registry String.length (AServe 1 Ex.rw).
Proof.
  apply (registry_outside_the_loop String.length (AServe 1 Ex.rw)).
  simpl. set_solver.
Defined.

(** C6.  The bytes of a message are not kept apart from the buffer of the
    scanner: [main] sends the view [scan.Bytes()] itself (l.156), and the
    next [scan.Scan()] reuses the buffer.  On this input the first line,
    3000 bytes "a", is taken by [Notifier]; the producer scans the second
    line before the loop fans the first one out, and the subscriber is
    written an event that starts with the second line, not the bytes
    that were published. *)
Theorem scanner_buffer_is_overwritten_before_delivery :
  ∃ w, Mem.run_mem MemEx.overwrite (Mem.main_mem false MemEx.input) = Some w ∧
    Mem.sent w = [MemEx.line1] ∧
    Mem.wire w !! 1 =
      Some [Mem.sse_event (MemEx.line2 ++ [Byte.x0a] ++ drop 4 MemEx.line1)] ∧
    Mem.wire w !! 1 ≠ Some [Mem.sse_event MemEx.line1].
Proof.
  eexists. split; [vm_compute; reflexivity|].
  match goal with |- _ ∧ ?P ∧ _ => assert P as Hw by (vm_compute; reflexivity) end.
  split_and!; [vm_compute; reflexivity|exact Hw|].
  intros H. rewrite H in Hw.
  apply (f_equal (λ o : option (list (list Byte.byte)),
            match o with Some [e] => e !! 6 | _ => None end)) in Hw.
  vm_compute in Hw. discriminate Hw.
Qed.

(** ** Instances of the further properties *)

Lemma run_registry_is_listen_witness :
  ∃ s, Ex.go Ex.disconnect (Ex.start false false) = Some s ∧
    clients s = listen (intakes Ex.disconnect) ∅.
Proof.
  eexists. split; [vm_compute; reflexivity|].
  apply (run_registry_is_listen String.length Ex.disconnect (Ex.start false false)).
  vm_compute. reflexivity.
Defined.

Lemma notifier_is_a_one_place_queue_witness :
  ∃ s, Ex.go Ex.two_subscribers (Ex.start false false) = Some s ∧
    published Ex.two_subscribers = processed Ex.two_subscribers ++ Notifier s ∧
    length (Notifier s) ≤ 1.
Proof.
  eexists. split; [vm_compute; reflexivity|].
  apply (notifier_is_a_one_place_queue String.length false false Ex.two_subscribers).
  vm_compute. reflexivity.
Defined.

Lemma fanout_serves_the_snapshot_witness :
  ∃ s s1 s2, Ex.go Ex.two_subscribers (Ex.start false false) = Some s ∧
    step String.length (AEvent "a" [1; 2]) s = Some s1 ∧
    Ex.go Ex.fanout s1 = Some s2 ∧
    delivered Ex.fanout ++ pending s2 = [1; 2].
Proof.
  eexists _, _, _. split; [vm_compute; reflexivity|].
  match goal with |- step _ _ ?s = _ ∧ _ => set (s0 := s) end.
  split; [vm_compute; reflexivity|].
  match goal with |- Ex.go _ ?s = _ ∧ _ => set (s1 := s) end.
  split; [vm_compute; reflexivity|].
  eapply (fanout_serves_the_snapshot String.length s0 "a" [1; 2] s1 Ex.fanout).
  - vm_compute. reflexivity.
  - vm_compute. reflexivity.
  - intros e o Hin. vm_compute in Hin.
    repeat (apply elem_of_cons in Hin as [Hin|Hin]; [discriminate Hin|]).
    by apply elem_of_nil in Hin.
Defined.

Lemma deferred_send_deadlocks_the_loop_witness :
  ∃ s s', Ex.go Ex.unwinding (Ex.start false false) = Some s ∧
    Ex.go [AScan (Some "y")] s = Some s' ∧
    loop s' = LRange "x" [1] ∧ pc_of s' 1 = Some HDeferred.
Proof.
  eexists _, _. split; [vm_compute; reflexivity|].
  match goal with |- Ex.go _ ?s = _ ∧ _ => set (s0 := s) end.
  split; [vm_compute; reflexivity|].
  match goal with |- loop ?s = _ ∧ _ => set (s1 := s) end.
  destruct (deferred_send_deadlocks_the_loop String.length s0 "x" 1 []
              [AScan (Some "y")] s1) as (Hl & Hpc & _); [reflexivity..|].
  by split.
Defined.

Lemma registry_tracks_the_handlers_witness :
  ∃ s, Ex.go Ex.disconnect (Ex.start false false) = Some s ∧
    (clients s !! 1 = None ↔ ¬ attached s 1).
Proof.
  eexists. split; [vm_compute; reflexivity|].
  eapply (registry_tracks_the_handlers String.length false false Ex.disconnect _ 1).
  vm_compute. reflexivity.
Defined.

Lemma producer_stops_only_when_scan_fails_witness :
  ∃ s, Ex.go [AScan None] (Ex.start false false) = Some s ∧
    (AScan None ∈ [AScan (Msg:=string) None]).
Proof.
  eexists. split; [vm_compute; reflexivity|].
  eapply (producer_stops_only_when_scan_fails String.length false false [AScan None]).
  - vm_compute. reflexivity.
  - reflexivity.
Defined.

Lemma late_subscriber_gets_no_earlier_event_witness :
  Forall (λ km : nat * string, 1 < km.1)
    (deliveries 1 0 (Ex.before_late ++ ARegister 1 :: Ex.after_late)).
Proof.
  destruct (Ex.go Ex.before_late (Ex.start false false)) as [s1|] eqn:H1;
    [|by vm_compute in H1].
  destruct (step String.length (ARegister 1) s1) as [s1'|] eqn:H2;
    [|vm_compute in H1; injection H1 as <-; by vm_compute in H2].
  destruct (Ex.go Ex.after_late s1') as [s2|] eqn:H3;
    [|vm_compute in H1; injection H1 as <-; vm_compute in H2; injection H2 as <-;
      by vm_compute in H3].
  apply Forall_forall. intros [k m] Hin.
  exact (late_subscriber_gets_no_earlier_event String.length Ex.before_late
           (Ex.start false false) s1 1 s1' Ex.after_late s2 H1 H2 H3 k m Hin).
Defined.

Lemma handler_writes_what_it_receives_witness :
  ∃ s, Ex.go Ex.late (Ex.start false false) = Some s ∧
    received 1 Ex.late = out_of s 1 ++ writing s 1.
Proof.
  eexists. split; [vm_compute; reflexivity|].
  match goal with |- _ = out_of ?s _ ++ _ => set (s0 := s) end.
  refine (proj2 (proj2 (handler_writes_what_it_receives String.length false false
                          Ex.late s0 1 _)) _).
  - vm_compute. reflexivity.
  - reflexivity.
Defined.

Lemma fanout_completes_when_all_wait_witness :
  ∃ s s1, Ex.go Ex.two_subscribers (Ex.start false false) = Some s ∧
    step String.length (AEvent "a" [1; 2]) s = Some s1 ∧
    ∃ s', Ex.go [ADeliver 1 "a"; ADeliver 2 "a"] s1 = Some s' ∧ loop s' = LSelect.
Proof.
  eexists _, _. split; [vm_compute; reflexivity|].
  split; [vm_compute; reflexivity|].
  match goal with |- ∃ s', Ex.go _ ?s = _ ∧ _ => set (s1 := s) end.
  destruct (fanout_completes_when_all_wait String.length s1 "a" [1; 2])
    as (s' & Hr & Hl & _).
  - reflexivity.
  - by repeat constructor; set_solver.
  - intros c Hin. apply elem_of_cons in Hin as [->|Hin]; [reflexivity|].
    apply elem_of_cons in Hin as [->|Hin]; [reflexivity|].
    by apply elem_of_nil in Hin.
  - exists s'. by split.
Defined.
